(** * Cubemap Creator: face classifier, slot assignment and layout compositor

    A shallow embedding of [src/app/layout.tsx] (the page component of the
    cubemap tool) together with the properties its specification states.

    Conventions of the embedding.
    - A JavaScript string is a [string] of 8-bit code units: the Latin-1
      range of the UTF-16 code units the program sees.
    - A slot image ([string | null]) is an [option string]; the program
      tests it by truthiness, so [None] and the empty string both count as empty.
    - A number is an integer of [Z]: widths, heights, cells and pixel
      coordinates of the program are small integers, on which the
      arithmetic of doubles is exact; [getGridArea], which computes on its
      argument, is modelled on the safe integers only.
    - [setSlots (prev => ...)] is a state transformer on the slot list; a
      [FileReader] or [Image] whose [onload] fires later is a pending task
      that is applied to the state current at that time. *)

From Stdlib Require Import ZArith Ascii String.
From stdpp Require Import base option list strings.
From stdpp Require Import pretty.

Open Scope string_scope.
Open Scope nat_scope.
Open Scope list_scope.

(** ** Data model *)

(** [type CubeFace = "top" | "left" | "front" | "right" | "back" | "bottom"] *)
Inductive CubeFace := FTop | FLeft | FFront | FRight | FBack | FBottom.

#[global] Instance CubeFace_eq_dec : EqDecision CubeFace.
Proof. solve_decision. Defined.

Definition all_faces : list CubeFace :=
  [FTop; FLeft; FFront; FRight; FBack; FBottom].

(** [interface FaceSlot { face: CubeFace; image: string | null }] *)
Record FaceSlot := { face : CubeFace; image : option string }.

(** ** Regular expressions of the classifier

    The fragment of JavaScript regular expressions the program uses on
    file names: anchors, literal characters (compared under the [i] flag),
    the class [[_\-\s]], sequence, alternation and [?]. *)
Module Regex.

Inductive regex :=
| Bol                         (* ^ *)
| Eol                         (* $ *)
| Eps                         (* empty pattern *)
| Chr (c : ascii)             (* one literal character *)
| Sep                         (* [_\-\s] *)
| Cat (r1 r2 : regex)
| Alt (r1 r2 : regex)
| Opt (r : regex).            (* (?:r)? *)

Definition code (c : ascii) : N := N_of_ascii c.

(** Canonical form of a code unit under the [i] flag: its upper case.  A
    code unit of 128 or more never canonicalises to an ASCII character, so
    it is left as it is. *)
Definition canonicalize (c : ascii) : ascii :=
  if ((97 <=? code c) && (code c <=? 122))%N
  then ascii_of_N (code c - 32) else c.

(** [\s]: white space and line terminators among the code units 0..255. *)
Definition is_space (c : ascii) : bool :=
  (((9 <=? code c) && (code c <=? 13)) || (code c =? 32) || (code c =? 160))%N.

(** [[_\-\s]] *)
Definition is_sep (c : ascii) : bool :=
  (code c =? 95)%N || (code c =? 45)%N || is_space c.

(** Backtracking matcher in continuation-passing style.  [bol] tells whether
    the current position is the start of the input; [k] is what remains to
    be matched after [r]. *)
Fixpoint rmatch (r : regex) (k : bool → string → bool)
    (bol : bool) (s : string) : bool :=
  match r with
  | Bol => bol && k bol s
  | Eol => match s with EmptyString => k bol s | String _ _ => false end
  | Eps => k bol s
  | Chr c =>
      match s with
      | String d s' => Ascii.eqb (canonicalize d) (canonicalize c) && k false s'
      | EmptyString => false
      end
  | Sep =>
      match s with
      | String d s' => is_sep d && k false s'
      | EmptyString => false
      end
  | Cat r1 r2 => rmatch r1 (rmatch r2 k) bol s
  | Alt r1 r2 => rmatch r1 k bol s || rmatch r2 k bol s
  | Opt r1 => rmatch r1 k bol s || k bol s
  end.

Definition match_here (r : regex) (bol : bool) (s : string) : bool :=
  rmatch r (λ _ _, true) bol s.

(** [regex.test(s)] for a regex without the [g] flag: is there a match
    starting at some position of [s]? *)
Fixpoint test_from (r : regex) (bol : bool) (s : string) : bool :=
  match_here r bol s ||
  match s with
  | EmptyString => false
  | String _ s' => test_from r false s'
  end.

Definition test (r : regex) (s : string) : bool := test_from r true s.

(** A literal word, character by character. *)
Fixpoint lit (w : string) : regex :=
  match w with
  | EmptyString => Eps
  | String c EmptyString => Chr c
  | String c w' => Cat (Chr c) (lit w')
  end.

Fixpoint cat (rs : list regex) : regex :=
  match rs with
  | [] => Eps
  | [r] => r
  | r :: rs' => Cat r (cat rs')
  end.

End Regex.
Import Regex.

(** ** Face classifier *)

(** [String.prototype.toLowerCase] on one code unit of the range 0..255. *)
Definition lower_char (c : ascii) : ascii :=
  if (((65 <=? code c) && (code c <=? 90)) ||
      ((192 <=? code c) && (code c <=? 222) && negb (code c =? 215)))%N
  then ascii_of_N (code c + 32) else c.

Fixpoint toLowerCase (s : string) : string :=
  match s with
  | EmptyString => EmptyString
  | String c s' => String (lower_char c) (toLowerCase s')
  end.

Definition is_dot (c : ascii) : bool := (code c =? 46)%N.

Fixpoint no_dot (s : string) : bool :=
  match s with
  | EmptyString => true
  | String c s' => negb (is_dot c) && no_dot s'
  end.

Definition nonempty (s : string) : bool :=
  match s with EmptyString => false | String _ _ => true end.

(** [s.replace(/\.[^.]+$/, empty)]: the leftmost position where a dot is
    followed, up to the end of the string, by one or more characters that
    are not dots; everything from that dot on is removed. *)
Fixpoint removeExtension (s : string) : string :=
  match s with
  | EmptyString => EmptyString
  | String c s' =>
      if is_dot c && nonempty s' && no_dot s' then EmptyString
      else String c (removeExtension s')
  end.

(** [(?:^|[_\-\s])] and [(?:[_\-\s]|$)] *)
Definition lead : regex := Alt Bol Sep.
Definition trail : regex := Alt Sep Eol.

(** [/(?:^|[_\-\s])pos(?:itive)?[_\-\s]?x(?:[_\-\s]|$)/i] and siblings *)
Definition long_form (sign rest axis : string) : regex :=
  cat [lead; lit sign; Opt (lit rest); Opt Sep; lit axis; trail].

(** [/(?:^|[_\-\s])px(?:[_\-\s]|$)/i] and siblings *)
Definition bounded (w : string) : regex := cat [lead; lit w; trail].

(** [/(?:^|[_\-\s])(?:top|up)(?:[_\-\s]|$)/i] and siblings *)
Definition bounded2 (w1 w2 : string) : regex :=
  cat [lead; Alt (lit w1) (lit w2); trail].

Definition pos_neg_patterns : list (regex * CubeFace) :=
  [ (long_form "pos" "itive" "x", FRight);
    (long_form "neg" "ative" "x", FLeft);
    (long_form "pos" "itive" "y", FTop);
    (long_form "neg" "ative" "y", FBottom);
    (long_form "pos" "itive" "z", FFront);
    (long_form "neg" "ative" "z", FBack) ].

Definition shorthand_patterns : list (regex * CubeFace) :=
  [ (bounded "px", FRight);
    (bounded "nx", FLeft);
    (bounded "py", FTop);
    (bounded "ny", FBottom);
    (bounded "pz", FFront);
    (bounded "nz", FBack) ].

Definition directional_patterns : list (regex * CubeFace) :=
  [ (bounded "right", FRight);
    (bounded "left", FLeft);
    (bounded2 "top" "up", FTop);
    (bounded2 "bottom" "down", FBottom);
    (bounded2 "front" "forward", FFront);
    (bounded2 "back" "backward", FBack) ].

Definition sign_patterns : list (regex * CubeFace) :=
  [ (lit "+x", FRight);
    (lit "-x", FLeft);
    (lit "+y", FTop);
    (lit "-y", FBottom);
    (lit "+z", FFront);
    (lit "-z", FBack) ].

(** The [patterns] array, in the order of the source. *)
Definition patterns : list (regex * CubeFace) :=
  pos_neg_patterns ++ shorthand_patterns ++ directional_patterns
  ++ sign_patterns.

(** [for (const { regex, face } of patterns) if (regex.test(name)) return face;
    return null] *)
Fixpoint first_match (ps : list (regex * CubeFace)) (name : string)
    : option CubeFace :=
  match ps with
  | [] => None
  | (r, f) :: ps' => if test r name then Some f else first_match ps' name
  end.

Definition detectFaceFromFilename (filename : string) : option CubeFace :=
  let name := removeExtension (toLowerCase filename) in
  first_match patterns name.

(** ** Slot state *)

(** [const INITIAL_SLOTS: FaceSlot[]] *)
Definition INITIAL_SLOTS : list FaceSlot :=
  [ {| face := FTop; image := None |};
    {| face := FLeft; image := None |};
    {| face := FFront; image := None |};
    {| face := FRight; image := None |};
    {| face := FBack; image := None |};
    {| face := FBottom; image := None |} ].

(** Truthiness of [slot.image]: [null] and the empty string are falsy. *)
Definition truthy (im : option string) : bool :=
  match im with
  | Some s => nonempty s
  | None => false
  end.

Definition filled (slot : FaceSlot) : bool := truthy (image slot).

(** [{ ...slot, image: img }] *)
Definition with_image (slot : FaceSlot) (img : option string) : FaceSlot :=
  {| face := face slot; image := img |}.

(** [Array.prototype.findIndex]; [None] stands for the result [-1]. *)
Fixpoint findIndex_from {A} (p : A → nat → bool) (i : nat) (l : list A)
    : option nat :=
  match l with
  | [] => None
  | x :: l' => if p x i then Some i else findIndex_from p (S i) l'
  end.

Definition findIndex {A} (p : A → nat → bool) (l : list A) : option nat :=
  findIndex_from p 0 l.

(** A file as the program uses it: its name, and the data URL that
    [FileReader.readAsDataURL] delivers to [onload] for it. *)
Record File := { name : string; dataURL : string }.

(** The argument of [setSlots]: a function from the previous slots. *)
Definition Update : Type := list FaceSlot → list FaceSlot.

(** ** Slot assignment engine *)

(** The [onload] update of [handleFileChange(index, file)]. *)
Definition assignAt (index : nat) (img : string) : Update :=
  λ prev,
    imap (λ i slot, if decide (i = index) then with_image slot (Some img)
                    else slot) prev.

Definition handleFileChange (index : nat) (file : option File)
    : list Update :=
  match file with
  | None => []
  | Some f => [assignAt index (dataURL f)]
  end.

(** The [onload] update of the first branch of [handleBulkUpload]
    ("use detected face names to place images"). *)
Definition placeDetected (fc : option CubeFace) (img : string) : Update :=
  λ prev,
    match fc with
    | Some f =>
        (λ slot, if decide (face slot = f) then with_image slot (Some img)
                 else slot) <$> prev
    | None =>
        match findIndex (λ s _, negb (filled s)) prev with
        | None => prev
        | Some emptyIndex =>
            imap (λ i slot, if decide (i = emptyIndex)
                            then with_image slot (Some img) else slot) prev
        end
    end.

(** The [onload] update of the second branch ("sequential placement"). *)
Definition placeSequential (fileIndex : nat) (img : string) : Update :=
  λ prev,
    let emptyIndex :=
      findIndex (λ s i, negb (filled s) && bool_decide (fileIndex ≤ i)) prev in
    let targetIndex := default fileIndex emptyIndex in
    imap (λ i slot, if bool_decide (i = targetIndex) && negb (filled slot)
                    then with_image slot (Some img) else slot) prev.

(** [handleBulkUpload(files)]: the updates whose file reads it starts, in
    the order of the files.  Each one is applied when its read completes. *)
Definition handleBulkUpload (files : option (list File)) : list Update :=
  match files with
  | None => []
  | Some files =>
      let fileArray := take 6 files in
      let detectedMappings :=
        (λ file, (file, detectFaceFromFilename (name file))) <$> fileArray in
      let hasDetectedFaces :=
        existsb (λ m, bool_decide (m.2 ≠ None)) detectedMappings in
      if hasDetectedFaces
      then (λ m, placeDetected m.2 (dataURL m.1)) <$> detectedMappings
      else imap (λ fileIndex file, placeSequential fileIndex (dataURL file))
                fileArray
  end.

(** Completion of reads: the updates are applied one after the other, in
    the order in which the reads complete. *)
Definition complete (us : list Update) (s : list FaceSlot) : list FaceSlot :=
  foldl (λ acc u, u acc) s us.

(** The exchange inside [handleDrop] and the touch handler.  Reading
    [.image] of a missing element throws; [None] stands for that. *)
Definition swapImages (draggedIndex targetIndex : nat) (prev : list FaceSlot)
    : option (list FaceSlot) :=
  let newSlots := prev in
  d ← newSlots !! draggedIndex;
  let draggedImage := image d in
  t ← newSlots !! targetIndex;
  let newSlots := <[draggedIndex := with_image d (image t)]> newSlots in
  t' ← newSlots !! targetIndex;
  let newSlots := <[targetIndex := with_image t' draggedImage]> newSlots in
  Some newSlots.

(** The part of the component state the handlers below use. *)
Record State := {
  slots : list FaceSlot;
  draggedIndex : option nat;
  isDraggingFile : bool
}.

(** [handleDrop(e, targetIndex)] where [files] is [e.dataTransfer.files]:
    the new state and the reads started; [None] if the handler throws. *)
Definition handleDrop (st : State) (targetIndex : nat) (files : list File)
    : option (State * list Update) :=
  match files with
  | f :: _ =>
      Some ({| slots := slots st; draggedIndex := None;
               isDraggingFile := false |},
            handleFileChange targetIndex (Some f))
  | [] =>
      match draggedIndex st with
      | Some d =>
          if decide (d ≠ targetIndex) then
            s' ← swapImages d targetIndex (slots st);
            Some ({| slots := s'; draggedIndex := None;
                     isDraggingFile := false |}, [])
          else Some ({| slots := slots st; draggedIndex := None;
                        isDraggingFile := false |}, [])
      | None => Some ({| slots := slots st; draggedIndex := None;
                         isDraggingFile := false |}, [])
      end
  end.

(** [handleGlobalDrop(e)], the [onDrop] of the main container. *)
Definition handleGlobalDrop (st : State) (files : list File)
    : State * list Update :=
  ({| slots := slots st; draggedIndex := draggedIndex st;
      isDraggingFile := false |},
   if bool_decide (1 < length files) then handleBulkUpload (Some files)
   else []).

(** A drop on a slot: the slot's [onDrop] runs, then the event bubbles to
    the container's [onDrop]. *)
Definition dropOnSlot (st : State) (targetIndex : nat) (files : list File)
    : option (State * list Update) :=
  '(st1, us1) ← handleDrop st targetIndex files;
  let '(st2, us2) := handleGlobalDrop st1 files in
  Some (st2, us1 ++ us2).

(** [clearSlot(index)] and [clearAll()] *)
Definition clearSlot (index : nat) : Update :=
  λ prev,
    imap (λ i slot, if decide (i = index) then with_image slot None else slot)
         prev.

Definition clearAll : Update := λ _, INITIAL_SLOTS.

(** [handleDragStart(e, index)]: the new state and whether the handler
    called [e.preventDefault()]; [None] if [slots[index]] is undefined and
    reading its image throws. *)
Definition handleDragStart (st : State) (index : nat)
    : option (State * bool) :=
  slot ← slots st !! index;
  if negb (filled slot) then Some (st, true)
  else Some ({| slots := slots st; draggedIndex := Some index;
                isDraggingFile := isDraggingFile st |}, false).

(** [handleDragEnd()] *)
Definition handleDragEnd (st : State) : State :=
  {| slots := slots st; draggedIndex := None;
     isDraggingFile := isDraggingFile st |}.

(** [handleGlobalDragOver(e)] where [hasFiles] is
    [e.dataTransfer.types.includes("Files")]. *)
Definition handleGlobalDragOver (st : State) (hasFiles : bool) : State :=
  {| slots := slots st; draggedIndex := draggedIndex st;
     isDraggingFile := if hasFiles then true else isDraggingFile st |}.

(** The two refs of the touch handlers. *)
Record Touch := { touchStartIndex : option nat; isDraggingTouch : bool }.

(** The touch handlers get the slot under the finger from the document:
    [findSlotIndex(document.elementFromPoint(...))], here an [option nat]
    with [None] for [-1].  The slot elements are those rendered from
    [slots], in order, and an element has the class [has-image] exactly
    when its slot's image is truthy. *)

(** [handleTouchStart(e)]: state, refs and whether [e.preventDefault()]
    was called. *)
Definition handleTouchStart (st : State) (t : Touch) (index : option nat)
    : State * Touch * bool :=
  match index with
  | None => (st, t, false)
  | Some i =>
      match slots st !! i with
      | Some slot =>
          if filled slot then
            ({| slots := slots st; draggedIndex := Some i;
                isDraggingFile := isDraggingFile st |},
             {| touchStartIndex := Some i; isDraggingTouch := false |},
             true)
          else (st, t, false)
      | None => (st, t, false)
      end
  end.

(** [handleTouchMove(e)]; the hover highlight it also sets is not part of
    [State]. *)
Definition handleTouchMove (t : Touch) (target : option nat) : Touch * bool :=
  match touchStartIndex t with
  | None => (t, false)
  | Some start => ({| touchStartIndex := Some start; isDraggingTouch := true |},
                   true)
  end.

(** [handleTouchEnd(e)], up to the timer it sets; [None] if the exchange
    throws. *)
Definition handleTouchEnd (st : State) (t : Touch) (target : option nat)
    : option (State * Touch) :=
  match touchStartIndex t with
  | None => Some (st, t)
  | Some startIndex =>
      s' ← match target with
           | Some targetIndex =>
               if isDraggingTouch t && bool_decide (startIndex ≠ targetIndex)
               then swapImages startIndex targetIndex (slots st)
               else Some (slots st)
           | None => Some (slots st)
           end;
      Some ({| slots := s'; draggedIndex := None;
               isDraggingFile := isDraggingFile st |},
            {| touchStartIndex := None;
               isDraggingTouch := isDraggingTouch t |})
  end.

(** The timer of [handleTouchEnd], 350 ms later. *)
Definition touchTimer (t : Touch) : Touch :=
  {| touchStartIndex := touchStartIndex t; isDraggingTouch := false |}.

(** [handleSlotClick(index)]: the refs, and the slot whose file input is
    clicked, if any. *)
Definition handleSlotClick (st : State) (t : Touch) (index : nat)
    : Touch * option nat :=
  if isDraggingTouch t then
    ({| touchStartIndex := touchStartIndex t; isDraggingTouch := false |},
     None)
  else (t, if bool_decide (index < length (slots st)) then Some index
           else None).

(** [const filledCount = slots.filter((s) => s.image).length]; the Clear
    All and Export buttons are [disabled={filledCount === 0}]. *)
Definition filledCount (slots : list FaceSlot) : nat :=
  length (filter (λ s, filled s = true) slots).

Definition buttons_disabled (slots : list FaceSlot) : bool :=
  bool_decide (filledCount slots = 0).

(** The integers on which the arithmetic of JavaScript numbers (doubles)
    is exact and a number prints as its decimal digits. *)
Definition MAX_SAFE_INTEGER : Z := 2 ^ 53 - 1.

Definition safe_integer (n : Z) : bool :=
  bool_decide (- MAX_SAFE_INTEGER ≤ n ≤ MAX_SAFE_INTEGER)%Z.

(** [getGridArea(pos)]: the template literal
    [row / col / row + 1 / col + 1].  The model covers cells with integer
    coordinates for which the four numbers are safe integers; [None]
    stands for every other argument, about which it says nothing. *)
Definition getGridArea (pos : Z * Z) : option string :=
  let row := (pos.2 + 1)%Z in
  let col := (pos.1 + 1)%Z in
  if safe_integer pos.1 && safe_integer pos.2
     && safe_integer (row + 1) && safe_integer (col + 1)
  then Some (pretty row +:+ " / " +:+ pretty col +:+ " / "
             +:+ pretty (row + 1)%Z +:+ " / " +:+ pretty (col + 1)%Z)
  else None.

(** ** Layout registry *)

(** [type ExportFormat]: the keys of the registry. *)
Inductive ExportFormat :=
| Cross | CrossVertical | StripHorizontal | StripVertical | Grid3x2 | Grid2x3.

Definition format_key (f : ExportFormat) : string :=
  match f with
  | Cross => "cross"
  | CrossVertical => "cross-vertical"
  | StripHorizontal => "strip-horizontal"
  | StripVertical => "strip-vertical"
  | Grid3x2 => "grid-3x2"
  | Grid2x3 => "grid-2x3"
  end.

Definition all_formats : list ExportFormat :=
  [Cross; CrossVertical; StripHorizontal; StripVertical; Grid3x2; Grid2x3].

(** [interface FormatConfig]; [width] and [height] are in face units and
    [positions] is the object literal, entry by entry. *)
Record FormatConfig := {
  format_name : string;
  width : Z;
  height : Z;
  positions : list (CubeFace * (Z * Z))
}.

(** Property access [obj[key]] on an object literal given by its entries;
    [None] stands for [undefined]. *)
Fixpoint prop {K V} `{EqDecision K} (k : K) (entries : list (K * V))
    : option V :=
  match entries with
  | [] => None
  | (k', v) :: rest => if decide (k = k') then Some v else prop k rest
  end.

(** The multiplication sign U+00D7 of two display names. *)
Definition times_sign : string := String (ascii_of_N 215) EmptyString.

(** [const EXPORT_FORMATS: Record<ExportFormat, FormatConfig>] *)
Definition EXPORT_FORMATS : list (string * FormatConfig) :=
  [ ("cross",
     {| format_name := "Cross (Horizontal)"; width := 4; height := 3;
        positions := [ (FTop, (1, 0)); (FLeft, (0, 1)); (FFront, (1, 1));
                       (FRight, (2, 1)); (FBack, (3, 1)); (FBottom, (1, 2)) ]%Z |});
    ("cross-vertical",
     {| format_name := "Cross (Vertical)"; width := 3; height := 4;
        positions := [ (FTop, (1, 0)); (FLeft, (0, 1)); (FFront, (1, 1));
                       (FRight, (2, 1)); (FBottom, (1, 2)); (FBack, (1, 3)) ]%Z |});
    ("strip-horizontal",
     {| format_name := "Strip (Horizontal)"; width := 6; height := 1;
        positions := [ (FRight, (0, 0)); (FLeft, (1, 0)); (FTop, (2, 0));
                       (FBottom, (3, 0)); (FFront, (4, 0)); (FBack, (5, 0)) ]%Z |});
    ("strip-vertical",
     {| format_name := "Strip (Vertical)"; width := 1; height := 6;
        positions := [ (FRight, (0, 0)); (FLeft, (0, 1)); (FTop, (0, 2));
                       (FBottom, (0, 3)); (FFront, (0, 4)); (FBack, (0, 5)) ]%Z |});
    ("grid-3x2",
     {| format_name := "Grid (3" +:+ times_sign +:+ "2)"; width := 3; height := 2;
        positions := [ (FRight, (0, 0)); (FLeft, (1, 0)); (FTop, (2, 0));
                       (FBottom, (0, 1)); (FFront, (1, 1)); (FBack, (2, 1)) ]%Z |});
    ("grid-2x3",
     {| format_name := "Grid (2" +:+ times_sign +:+ "3)"; width := 2; height := 3;
        positions := [ (FRight, (0, 0)); (FLeft, (1, 0)); (FTop, (0, 1));
                       (FBottom, (1, 1)); (FFront, (0, 2)); (FBack, (1, 2)) ]%Z |}) ].

(** The [gridArea] of a slot's [style] in the rendered page:
    [getGridArea(EXPORT_FORMATS[exportFormat].positions[slot.face])];
    [None] if a property of [undefined] is read, or for a cell that
    [getGridArea] does not cover. *)
Definition slotGridArea (fmt : ExportFormat) (slot : FaceSlot)
    : option string :=
  format ← prop (format_key fmt) EXPORT_FORMATS;
  pos ← prop (face slot) (positions format);
  getGridArea pos.

(** ** Layout compositor *)

(** One [drawImage(img, dx, dy, dw, dh)] call; [src] identifies the image. *)
Record Draw := { src : string; dx : Z; dy : Z; dw : Z; dh : Z }.

(** A canvas: its size in pixels and the images drawn on it since it was
    cleared, oldest first. *)
Record Canvas := { cwidth : Z; cheight : Z; drawn : list Draw }.

Inductive Effect :=
| CreateCanvas (w h : Z)          (* createElement("canvas"), width, height *)
| ClearRect (x y w h : Z)
| Alert (msg : string)
| NewImage (source : string)      (* new Image() and img.src = ... *)
| DrawImage (d : Draw)
| ToBlob (snapshot : Canvas) (mime : string)
| Download (filename : string).

(** An [exportCubemap] call in progress. *)
Record Export := {
  exportFormat : ExportFormat;
  format : FormatConfig;
  canvas : Canvas;
  imagesLoaded : nat;
  totalImages : nat;
  loading : list FaceSlot;   (* slots whose image has not fired [onload] yet *)
  encoding : bool;           (* [toBlob] called, its callback outstanding *)
  effects : list Effect      (* what the call did so far, oldest first *)
}.

Definition FACE_SIZE : Z := 512.

(** [exportCubemap()] up to its return.  [ctx] tells whether
    [canvas.getContext("2d")] gives a context; [None] if a property of
    [undefined] is read. *)
Definition exportCubemap (slots : list FaceSlot) (fmt : ExportFormat)
    (ctx : bool) : option Export :=
  format ← prop (format_key fmt) EXPORT_FORMATS;
  let canvas := {| cwidth := FACE_SIZE * width format;
                   cheight := FACE_SIZE * height format; drawn := [] |}%Z in
  let started := {| exportFormat := fmt; format := format; canvas := canvas;
                    imagesLoaded := 0; totalImages := 0; loading := [];
                    encoding := false;
                    effects := [CreateCanvas (cwidth canvas) (cheight canvas)] |} in
  if negb ctx then Some started
  else
    let eff := effects started ++ [ClearRect 0 0 (cwidth canvas) (cheight canvas)] in
    let totalImages := length (filter (λ s, filled s = true) slots) in
    if bool_decide (totalImages = 0) then
      Some {| exportFormat := fmt; format := format; canvas := canvas;
              imagesLoaded := 0; totalImages := totalImages; loading := [];
              encoding := false;
              effects := eff ++
                [Alert "Please add at least one image before exporting."] |}
    else
      let images := filter (λ s, filled s = true) slots in
      Some {| exportFormat := fmt; format := format; canvas := canvas;
              imagesLoaded := 0; totalImages := totalImages;
              loading := images; encoding := false;
              effects := eff ++ ((λ s, NewImage (default EmptyString (image s))) <$> images) |}.

(** [img.onload] for the image of [slot]. *)
Definition onload (slot : FaceSlot) (ex : Export) : option Export :=
  pos ← prop (face slot) (positions (format ex));
  let d := {| src := default EmptyString (image slot);
              dx := pos.1 * FACE_SIZE; dy := pos.2 * FACE_SIZE;
              dw := FACE_SIZE; dh := FACE_SIZE |}%Z in
  let canvas := {| cwidth := cwidth (canvas ex); cheight := cheight (canvas ex);
                   drawn := drawn (canvas ex) ++ [d] |} in
  let imagesLoaded := S (imagesLoaded ex) in
  let done := bool_decide (imagesLoaded = totalImages ex) in
  Some {| exportFormat := exportFormat ex; format := format ex;
          canvas := canvas; imagesLoaded := imagesLoaded;
          totalImages := totalImages ex; loading := loading ex;
          encoding := if done then true else encoding ex;
          effects := effects ex ++ [DrawImage d] ++
            (if done then [ToBlob canvas "image/png"] else []) |}.

(** What the event loop can deliver to an export in progress: the image at
    position [i] of [loading] finishes decoding, or fails to (there is no
    [onerror] handler), or the [toBlob] callback runs with or without a
    blob.  An image fires at most one of the first two, once. *)
Inductive Event :=
| Loaded (i : nat)
| Failed (i : nat)
| BlobReady (blob : bool).

Definition without (i : nat) (ex : Export) : Export :=
  {| exportFormat := exportFormat ex; format := format ex;
     canvas := canvas ex; imagesLoaded := imagesLoaded ex;
     totalImages := totalImages ex; loading := delete i (loading ex);
     encoding := encoding ex; effects := effects ex |}.

Definition fire (ev : Event) (ex : Export) : option Export :=
  match ev with
  | Loaded i => slot ← loading ex !! i; onload slot (without i ex)
  | Failed i => _ ← loading ex !! i; Some (without i ex)
  | BlobReady blob =>
      if encoding ex then
        Some {| exportFormat := exportFormat ex; format := format ex;
                canvas := canvas ex; imagesLoaded := imagesLoaded ex;
                totalImages := totalImages ex; loading := loading ex;
                encoding := false;
                effects := effects ex ++
                  (if blob
                   then [Download ("cubemap-" +:+ format_key (exportFormat ex)
                                   +:+ ".png")]
                   else []) |}
      else None
  end.

Fixpoint run (evs : list Event) (ex : Export) : option Export :=
  match evs with
  | [] => Some ex
  | ev :: evs' => ex' ← fire ev ex; run evs' ex'
  end.

(** The images painted over the pixel [(px, py)], oldest first; none means
    the pixel is still fully transparent. *)
Definition covers (d : Draw) (px py : Z) : bool :=
  (bool_decide (dx d ≤ px < dx d + dw d) &&
   bool_decide (dy d ≤ py < dy d + dh d))%Z.

Definition painted (c : Canvas) (px py : Z) : list string :=
  src <$> filter (λ d, covers d px py = true) (drawn c).

(** The rasters handed to the encoder. *)
Definition rasters (es : list Effect) : list Canvas :=
  omap (λ e, match e with ToBlob c _ => Some c | _ => None end) es.

Definition output (ex : Export) : list Canvas := rasters (effects ex).

(** ** Vocabulary of the specification *)

(** The name the classifier actually matches against. *)
Definition normalized (filename : string) : string :=
  removeExtension (toLowerCase filename).

(** Two names that differ at most in the case of their letters. *)
Fixpoint same_ignoring_case (a b : string) : Prop :=
  match a, b with
  | EmptyString, EmptyString => True
  | String c a', String d b' =>
      lower_char c = lower_char d ∧ same_ignoring_case a' b'
  | _, _ => False
  end.

(** The table "Supported Filename Patterns" of the README. *)
Definition documented_patterns : list (CubeFace * list string) :=
  [ (FRight, ["px"; "posx"; "+x"; "right"]);
    (FLeft, ["nx"; "negx"; "-x"; "left"]);
    (FTop, ["py"; "posy"; "+y"; "top"; "up"]);
    (FBottom, ["ny"; "negy"; "-y"; "bottom"; "down"]);
    (FFront, ["pz"; "posz"; "+z"; "front"; "forward"]);
    (FBack, ["nz"; "negz"; "-z"; "back"; "backward"]) ].

(** The long forms of the specification's rule family 1: a sign word, an
    optional separator, the axis letter. *)
Definition long_forms (signs : list string) (axis : string) : list string :=
  s ← signs; sep ← [EmptyString; "_"; "-"; " "]; [s +:+ sep +:+ axis].

Definition documented_long_forms : list (CubeFace * list string) :=
  [ (FRight, long_forms ["pos"; "positive"] "x");
    (FLeft, long_forms ["neg"; "negative"] "x");
    (FTop, long_forms ["pos"; "positive"] "y");
    (FBottom, long_forms ["neg"; "negative"] "y");
    (FFront, long_forms ["pos"; "positive"] "z");
    (FBack, long_forms ["neg"; "negative"] "z") ].

(** The six layouts as section 6 of the specification enumerates them:
    key, width and height in cells, and the cell of each face. *)
Definition documented_layouts
    : list (string * (Z * Z) * list (CubeFace * (Z * Z))) :=
  [ ("cross", (4, 3),
     [ (FTop, (1, 0)); (FLeft, (0, 1)); (FFront, (1, 1)); (FRight, (2, 1));
       (FBack, (3, 1)); (FBottom, (1, 2)) ]);
    ("cross-vertical", (3, 4),
     [ (FTop, (1, 0)); (FLeft, (0, 1)); (FFront, (1, 1)); (FRight, (2, 1));
       (FBottom, (1, 2)); (FBack, (1, 3)) ]);
    ("strip-horizontal", (6, 1),
     [ (FRight, (0, 0)); (FLeft, (1, 0)); (FTop, (2, 0)); (FBottom, (3, 0));
       (FFront, (4, 0)); (FBack, (5, 0)) ]);
    ("strip-vertical", (1, 6),
     [ (FRight, (0, 0)); (FLeft, (0, 1)); (FTop, (0, 2)); (FBottom, (0, 3));
       (FFront, (0, 4)); (FBack, (0, 5)) ]);
    ("grid-3x2", (3, 2),
     [ (FRight, (0, 0)); (FLeft, (1, 0)); (FTop, (2, 0));
       (FBottom, (0, 1)); (FFront, (1, 1)); (FBack, (2, 1)) ]);
    ("grid-2x3", (2, 3),
     [ (FRight, (0, 0)); (FLeft, (1, 0)); (FTop, (0, 1)); (FBottom, (1, 1));
       (FFront, (0, 2)); (FBack, (1, 2)) ]) ]%Z.

(** The geometry of a registered layout, in the shape of that table. *)
Definition geometry (kc : string * FormatConfig)
    : string * (Z * Z) * list (CubeFace * (Z * Z)) :=
  (kc.1, (width kc.2, height kc.2), positions kc.2).

(** The cell mapping of a layout is total over the six faces, injective,
    and stays inside the [width] x [height] grid. *)
Definition cell_mapping_ok (c : FormatConfig) : Prop :=
  (∀ f, ∃ p, prop f (positions c) = Some p
             ∧ (0 ≤ p.1 < width c)%Z ∧ (0 ≤ p.2 < height c)%Z)
  ∧ (∀ f g, prop f (positions c) = prop g (positions c) → f = g)
  ∧ length (positions c) = 6.

(** The slot collection of the specification: one slot per face, in the
    canonical order. *)
Definition well_formed (s : list FaceSlot) : Prop := face <$> s = all_faces.

(** [e] is the first empty slot at index [i] or later. *)
Definition first_empty_from (i : nat) (s : list FaceSlot) (e : nat) : Prop :=
  i ≤ e
  ∧ (∃ slot, s !! e = Some slot ∧ filled slot = false)
  ∧ ∀ k slot, i ≤ k < e → s !! k = Some slot → filled slot = true.

(** No slot at index [i] or later is empty. *)
Definition no_empty_from (i : nat) (s : list FaceSlot) : Prop :=
  ∀ k slot, i ≤ k → s !! k = Some slot → filled slot = true.

(** [next] is [prev] with the image of the slot at index [e] replaced by
    [img]; nothing else changes. *)
Definition placed_at (e : nat) (img : string) (prev next : list FaceSlot)
    : Prop :=
  ∃ slot, prev !! e = Some slot
          ∧ next = <[e := with_image slot (Some img)]> prev.

(** [next] is [prev] with [img] written into every slot of face [fc],
    whatever it held; the other slots are unchanged. *)
Definition written_to_face (fc : CubeFace) (img : string)
    (prev next : list FaceSlot) : Prop :=
  length next = length prev
  ∧ ∀ k slot, prev !! k = Some slot →
      next !! k = Some (if decide (face slot = fc)
                        then {| face := fc; image := Some img |} else slot).

(** Placement of a file of unknown face in detected mode: into the first
    empty slot in canonical order, or dropped when no slot is empty. *)
Definition placed_first_empty (img : string) (prev next : list FaceSlot)
    : Prop :=
  (∃ e, first_empty_from 0 prev e ∧ placed_at e img prev next)
  ∨ (no_empty_from 0 prev ∧ next = prev).

(** Placement of the [i]-th file in sequential mode, in the words of the
    specification: at the first empty slot at index [i] or later if there
    is one, otherwise at index [i] only if that slot is empty. *)
Definition placed_sequentially (i : nat) (img : string)
    (prev next : list FaceSlot) : Prop :=
  (∃ e, first_empty_from i prev e ∧ placed_at e img prev next)
  ∨ (no_empty_from i prev
     ∧ ((∃ slot, prev !! i = Some slot ∧ filled slot = false
                 ∧ placed_at i img prev next)
        ∨ ((∀ slot, prev !! i = Some slot → filled slot = true)
           ∧ next = prev))).

(** What a bulk upload that started the reads [us] does with its [i]-th
    file when that file's read completes: the [i]-th update, or nothing
    when the call started no read for it. *)
Definition file_effect (us : list Update) (i : nat) : Update :=
  default id (us !! i).

(** The image held by the slot of face [fc]. *)
Definition image_of (fc : CubeFace) (s : list FaceSlot) : option string :=
  slot ← list_find (λ slot, face slot = fc) s; image slot.2.

(** Files of the examples. *)
Definition file (n d : string) : File := {| name := n; dataURL := d |}.

Definition sky_files : list File :=
  [file "sky_px.png" "PX"; file "sky_nx.png" "NX"].

Definition abc_files : list File :=
  [file "a.png" "A"; file "b.png" "B"; file "c.png" "C"].

(** Seven files of which only the last one names a face. *)
Definition seven_files : list File :=
  [ file "a.png" "A"; file "b.png" "B"; file "c.png" "C"; file "d.png" "D";
    file "e.png" "E"; file "f.png" "F"; file "px.png" "PX" ].

(** All-empty slots with the given images in some of them. *)
Definition slots_with (top left front right back bottom : option string)
    : list FaceSlot :=
  [ {| face := FTop; image := top |};
    {| face := FLeft; image := left |};
    {| face := FFront; image := front |};
    {| face := FRight; image := right |};
    {| face := FBack; image := back |};
    {| face := FBottom; image := bottom |} ].

(** The cell of the grid a pixel lies in. *)
Definition cell (px py : Z) : Z * Z := (px / FACE_SIZE, py / FACE_SIZE)%Z.

(** The draw that [onload] performs for a slot under a layout. *)
Definition draw_of (cfg : FormatConfig) (slot : FaceSlot) : Draw :=
  let pos := default (0, 0)%Z (prop (face slot) (positions cfg)) in
  {| src := default EmptyString (image slot);
     dx := pos.1 * FACE_SIZE; dy := pos.2 * FACE_SIZE;
     dw := FACE_SIZE; dh := FACE_SIZE |}%Z.

Definition is_loaded (ev : Event) : Prop :=
  match ev with Loaded _ => True | _ => False end.

Definition is_failure (ev : Event) : Prop :=
  match ev with Failed _ => True | _ => False end.

#[global] Instance is_failure_dec ev : Decision (is_failure ev).
Proof. destruct ev; simpl; apply _. Defined.

(** Completion of the export is signalled: the raster was handed to the
    encoder, or a download was triggered. *)
Definition completion_signaled (ex : Export) : Prop :=
  (∃ c mime, ToBlob c mime ∈ effects ex) ∨ (∃ fn, Download fn ∈ effects ex).

(** What holds of an export in progress over the images [images] of the
    slots that were filled at its start: [ld] are the slots whose image has
    loaded (in that order), [fl] those whose image failed to decode. *)
Record export_invariant (images : list FaceSlot) (fmt : ExportFormat)
    (cfg : FormatConfig) (ld fl : list FaceSlot) (ex : Export) : Prop := {
  inv_perm : ld ++ fl ++ loading ex ≡ₚ images;
  inv_drawn : drawn (canvas ex) = draw_of cfg <$> ld;
  inv_loaded : imagesLoaded ex = length ld;
  inv_total : totalImages ex = length images;
  inv_format : format ex = cfg;
  inv_key : exportFormat ex = fmt;
  inv_width : cwidth (canvas ex) = (FACE_SIZE * width cfg)%Z;
  inv_height : cheight (canvas ex) = (FACE_SIZE * height cfg)%Z;
  inv_output :
    output ex = if decide (length ld = length images) then [canvas ex] else [];
  inv_encoding : encoding ex = true → length ld = length images;
  inv_download :
    ∀ fn, Download fn ∈ effects ex → length ld = length images
}.

(** Everything that changes the slots: the completion of a read started
    by [handleFileChange] or by either branch of [handleBulkUpload], the
    exchange of a drop or a touch, and the two clear buttons. *)
Inductive Action :=
| FileLoaded (index : nat) (img : string)
| DetectedLoaded (fc : option CubeFace) (img : string)
| SequentialLoaded (fileIndex : nat) (img : string)
| Exchange (draggedIndex targetIndex : nat)
| ClearSlot (index : nat)
| ClearAll.

Definition act (a : Action) (s : list FaceSlot) : option (list FaceSlot) :=
  match a with
  | FileLoaded index img => Some (assignAt index img s)
  | DetectedLoaded fc img => Some (placeDetected fc img s)
  | SequentialLoaded i img => Some (placeSequential i img s)
  | Exchange d t => swapImages d t s
  | ClearSlot index => Some (clearSlot index s)
  | ClearAll => Some (clearAll s)
  end.

Fixpoint acts (l : list Action) (s : list FaceSlot)
    : option (list FaceSlot) :=
  match l with
  | [] => Some s
  | a :: l' => s' ← act a s; acts l' s'
  end.

(** A mouse drag of slot [i] dropped on slot [j]: drag start, drop without
    files (unless the start was prevented, when no drop follows), drag
    end.  The result is the state after the gesture and the reads its
    handlers started; [handleDragStart] and [handleDragEnd] start none. *)
Definition mouseDrag (st : State) (i j : nat)
    : option (State * list Update) :=
  '(st1, prevented) ← handleDragStart st i;
  if prevented : bool then Some (st1, [])
  else '(st2, reads) ← dropOnSlot st1 j [];
       Some (handleDragEnd st2, reads).

(** A touch drag from slot [i] to slot [j]: touch start, one move, touch
    end. *)
Definition touchDrag (st : State) (t : Touch) (i j : nat)
    : option (State * Touch) :=
  let '(st1, t1, _) := handleTouchStart st t (Some i) in
  let '(t2, _) := handleTouchMove t1 (Some j) in
  handleTouchEnd st1 t2 (Some j).

(** A tap on slot [i]: touch start and touch end with no move between. *)
Definition touchTap (st : State) (t : Touch) (i : nat)
    : option (State * Touch) :=
  let '(st1, t1, _) := handleTouchStart st t (Some i) in
  handleTouchEnd st1 t1 (Some i).

(** [s'] is [s] with the images of the slots [i] and [j] exchanged: slot
    [j] has its own face and the image slot [i] had, slot [i] its own face
    and the image slot [j] had, every other slot is as in [s]. *)
Definition exchanged (i j : nat) (s s' : list FaceSlot) : Prop :=
  ∃ d t,
    s !! i = Some d ∧ s !! j = Some t
    ∧ ∀ k, s' !! k =
           if decide (k = j) then Some (with_image t (image d))
           else if decide (k = i) then Some (with_image d (image t))
           else s !! k.

(** The indices of an exchange name existing slots (the handlers get them
    from the six rendered slots). *)
Definition in_range (a : Action) : Prop :=
  match a with
  | Exchange d t => d < 6 ∧ t < 6
  | _ => True
  end.

(** The slots after the reads of the entries [prior] have been applied to
    [s] by position: the slot at an index that has an entry holds that
    entry's image, the others are as in [s]. *)
Definition placed_by_index (prior : list (nat * File)) (s : list FaceSlot)
    : list FaceSlot :=
  imap (λ i slot, match prop i prior with
                  | Some f => with_image slot (Some (dataURL f))
                  | None => slot
                  end) s.

(** The same by face: a slot whose face has an entry holds that entry's
    image. *)
Definition placed_by_face (prior : list (CubeFace * string))
    (s : list FaceSlot) : list FaceSlot :=
  (λ slot, match prop (face slot) prior with
           | Some img => with_image slot (Some img)
           | None => slot
           end) <$> s.

(** The faces and images of files whose names all classify. *)
Definition detected_table (fs : list File) : list (CubeFace * string) :=
  omap (λ f, (λ fc, (fc, dataURL f)) <$> detectFaceFromFilename (name f)) fs.

(** *** What a pattern matches, in words *)

(** [m] spells the word [w] up to the case of letters. *)
Fixpoint spells (m w : string) : Prop :=
  match m, w with
  | EmptyString, EmptyString => True
  | String d m', String c w' =>
      canonicalize d = canonicalize c ∧ spells m' w'
  | _, _ => False
  end.

(** The strings a pattern without anchors matches from end to end. *)
Fixpoint lang (r : regex) (m : string) : Prop :=
  match r with
  | Bol | Eol => False
  | Eps => m = EmptyString
  | Chr c => ∃ d, m = String d EmptyString ∧ canonicalize d = canonicalize c
  | Sep => ∃ d, m = String d EmptyString ∧ is_sep d = true
  | Cat r1 r2 => ∃ m1 m2, m = m1 +:+ m2 ∧ lang r1 m1 ∧ lang r2 m2
  | Alt r1 r2 => lang r1 m ∨ lang r2 m
  | Opt r1 => m = EmptyString ∨ lang r1 m
  end.

Fixpoint anchor_free (r : regex) : bool :=
  match r with
  | Bol | Eol => false
  | Eps | Chr _ | Sep => true
  | Cat r1 r2 | Alt r1 r2 => anchor_free r1 && anchor_free r2
  | Opt r1 => anchor_free r1
  end.

(** What comes before a match is nothing, or ends with one of [_], [-]
    and white space; what comes after is nothing, or starts with one. *)
Definition boundary_before (pre : string) : Prop :=
  pre = EmptyString
  ∨ ∃ pre' c, pre = pre' +:+ String c EmptyString ∧ is_sep c = true.

Definition boundary_after (post : string) : Prop :=
  post = EmptyString ∨ ∃ c post', post = String c post' ∧ is_sep c = true.

(** Somewhere in [s] there is a token satisfying [P]. *)
Definition occurs (P : string → Prop) (s : string) : Prop :=
  ∃ pre m post, s = pre +:+ m +:+ post ∧ P m.

(** The same, with a boundary on both sides of the token. *)
Definition occurs_delimited (P : string → Prop) (s : string) : Prop :=
  ∃ pre m post,
    s = pre +:+ m +:+ post ∧ P m ∧ boundary_before pre ∧ boundary_after post.

(** A long form: the sign word, optionally its ending, optionally one
    separator, the axis letter. *)
Definition long_token (sign rest axis m : string) : Prop :=
  ∃ m1 m2 m3 m4,
    m = m1 +:+ m2 +:+ m3 +:+ m4
    ∧ spells m1 sign
    ∧ (m2 = EmptyString ∨ spells m2 rest)
    ∧ (m3 = EmptyString ∨ ∃ d, m3 = String d EmptyString ∧ is_sep d = true)
    ∧ spells m4 axis.

(** The rules of the first three families by what they look for: one
    word, either of two words, or a long form. *)
Inductive Token :=
| Word (w : string)
| Words (w1 w2 : string)
| Long (sign rest axis : string).

Definition token_regex (t : Token) : regex :=
  match t with
  | Word w => bounded w
  | Words w1 w2 => bounded2 w1 w2
  | Long sign rest axis => long_form sign rest axis
  end.

(** [m] is a spelling of the token, up to the case of letters. *)
Definition token_spelled (t : Token) (m : string) : Prop :=
  match t with
  | Word w => spells m w
  | Words w1 w2 => spells m w1 ∨ spells m w2
  | Long sign rest axis => long_token sign rest axis m
  end.

(** What the eighteen rules of the first three families look for, in the
    order of the rules. *)
Definition rule_tokens : list (Token * CubeFace) :=
  [ (Long "pos" "itive" "x", FRight);
    (Long "neg" "ative" "x", FLeft);
    (Long "pos" "itive" "y", FTop);
    (Long "neg" "ative" "y", FBottom);
    (Long "pos" "itive" "z", FFront);
    (Long "neg" "ative" "z", FBack);
    (Word "px", FRight);
    (Word "nx", FLeft);
    (Word "py", FTop);
    (Word "ny", FBottom);
    (Word "pz", FFront);
    (Word "nz", FBack);
    (Word "right", FRight);
    (Word "left", FLeft);
    (Words "top" "up", FTop);
    (Words "bottom" "down", FBottom);
    (Words "front" "forward", FFront);
    (Words "back" "backward", FBack) ].

(** The rectangle of a draw lies inside the canvas. *)
Definition inside (c : Canvas) (d : Draw) : Prop :=
  (0 ≤ dx d ∧ dx d + dw d ≤ cwidth c ∧ 0 ≤ dy d ∧ dy d + dh d ≤ cheight c)%Z.

(** Two updates commute. *)
Definition commute (u v : Update) : Prop := ∀ s, u (v s) = v (u s).

(** Boolean check that every string of a table classifies to its face. *)
Definition classifies_as (t : list (CubeFace * list string)) : bool :=
  forallb (λ '(f, ws),
    forallb (λ w, bool_decide (detectFaceFromFilename w = Some f)) ws) t.

(** ** The classifier: lemmas *)

(** Only the last extension is removed, and a trailing dot is kept. *)
Example removeExtension_examples :
  removeExtension "sky_px.png" = "sky_px"
  ∧ removeExtension "px.tar.gz" = "px.tar"
  ∧ removeExtension "file." = "file."
  ∧ removeExtension ".px" = EmptyString
  ∧ removeExtension "px" = "px".
Proof. repeat split. Qed.

(** The boundary patterns need a separator or an end of the name on both
    sides; the sign patterns match anywhere. *)
Example test_examples :
  test (bounded "px") "sky_px" = true
  ∧ test (bounded "px") "px left" = true
  ∧ test (bounded "px") "apx" = false
  ∧ test (bounded "px") "pxa" = false
  ∧ test (long_form "pos" "itive" "x") "positive-x" = true
  ∧ test (long_form "pos" "itive" "x") "posit_x" = false
  ∧ test (bounded2 "back" "backward") "backward" = true
  ∧ test (lit "-x") "box-x1" = true.
Proof. vm_compute. repeat split. Qed.

Section first_match.
Variable name : string.

Lemma first_match_Some ps f :
  first_match ps name = Some f ↔
  ∃ i r, ps !! i = Some (r, f) ∧ test r name = true ∧
         ∀ j r' f', j < i → ps !! j = Some (r', f') → test r' name = false.
Proof.
  induction ps as [|[r0 f0] ps IH]; simpl.
  - split; [discriminate|]. intros (i & r & Hi & _). by destruct i.
  - destruct (test r0 name) eqn:Ht.
    + split.
      * intros [= <-]. exists 0, r0. repeat split; [done|]. intros; lia.
      * intros (i & r & Hi & Hr & Hlt). destruct i as [|i].
        { simpl in Hi. by inversion Hi. }
        specialize (Hlt 0 r0 f0 ltac:(lia) eq_refl). congruence.
    + rewrite IH. split.
      * intros (i & r & Hi & Hr & Hlt). exists (S i), r.
        repeat split; [done..|]. intros [|j] r' f' Hj Hl; simpl in Hl.
        { by inversion Hl; subst. }
        apply (Hlt j r' f'); [lia|done].
      * intros (i & r & Hi & Hr & Hlt). destruct i as [|i].
        { simpl in Hi. inversion Hi; subst. congruence. }
        exists i, r. repeat split; [done..|]. intros j r' f' Hj Hl.
        apply (Hlt (S j) r' f'); [lia|done].
Qed.

Lemma first_match_None ps :
  first_match ps name = None ↔
  ∀ r f, (r, f) ∈ ps → test r name = false.
Proof.
  induction ps as [|[r0 f0] ps IH]; simpl.
  - split; [|done]. intros _ r f H. by apply elem_of_nil in H.
  - destruct (test r0 name) eqn:Ht.
    + split; [discriminate|]. intros H.
      specialize (H r0 f0 ltac:(left)). congruence.
    + rewrite IH. split.
      * intros H r f [[= -> ->]|Hin]%elem_of_cons; [done|by eapply H].
      * intros H r f Hin. eapply H. by right.
Qed.
End first_match.

Lemma append_nil (b : string) : EmptyString +:+ b = b.
Proof. reflexivity. Qed.

Lemma append_cons c (a b : string) : String c a +:+ b = String c (a +:+ b).
Proof. reflexivity. Qed.

Lemma lower_char_dot c : is_dot (lower_char c) = is_dot c.
Proof. by destruct c as [[] [] [] [] [] [] [] []]. Qed.

Lemma toLowerCase_app a b :
  toLowerCase (a +:+ b) = toLowerCase a +:+ toLowerCase b.
Proof.
  induction a as [|c a IH]; [done|].
  rewrite !append_cons. simpl. by rewrite IH.
Qed.

Lemma no_dot_toLowerCase s : no_dot (toLowerCase s) = no_dot s.
Proof.
  induction s as [|c s IH]; simpl; [done|]. by rewrite lower_char_dot, IH.
Qed.

Lemma nonempty_toLowerCase s : nonempty (toLowerCase s) = nonempty s.
Proof. by destruct s. Qed.

Lemma no_dot_app_dot a b : no_dot (a +:+ "." +:+ b) = false.
Proof.
  induction a as [|c a IH]; [done|].
  rewrite append_cons. simpl. rewrite IH. apply andb_false_r.
Qed.

Lemma removeExtension_no_dot s : no_dot s = true → removeExtension s = s.
Proof.
  induction s as [|c s IH]; simpl; [done|].
  intros [Hc Hs]%andb_prop. apply negb_true_iff in Hc.
  rewrite Hc. simpl. by rewrite IH.
Qed.

Lemma removeExtension_app base ext :
  nonempty ext = true → no_dot ext = true →
  removeExtension (base +:+ "." +:+ ext) = base.
Proof.
  intros Hne Hnd. induction base as [|c base IH].
  - rewrite append_nil, append_cons, append_nil. simpl.
    change (is_dot ".") with true. by rewrite Hne, Hnd.
  - rewrite append_cons. simpl.
    rewrite no_dot_app_dot, andb_false_r. by rewrite IH.
Qed.

Lemma same_ignoring_case_lower a b :
  same_ignoring_case a b → toLowerCase a = toLowerCase b.
Proof.
  revert b. induction a as [|c a IH]; intros [|d b]; simpl; try done.
  intros [-> H]. by rewrite (IH b).
Qed.

Lemma classifies_as_sound t :
  classifies_as t = true →
  Forall (λ '(f, ws), Forall (λ w, detectFaceFromFilename w = Some f) ws) t.
Proof.
  intros H. apply Forall_forall. intros [f ws] Hin.
  apply Forall_forall. intros w Hw.
  unfold classifies_as in H. rewrite forallb_forall in H.
  apply list_elem_of_In in Hin. specialize (H _ Hin). simpl in H.
  rewrite forallb_forall in H. apply list_elem_of_In in Hw.
  specialize (H _ Hw). by apply bool_decide_eq_true in H.
Qed.

(** ** The matcher: what a pattern matches *)

Lemma append_nil_r (a : string) : a +:+ EmptyString = a.
Proof. induction a as [|c a IH]; [done|]. by rewrite append_cons, IH. Qed.

Lemma append_assoc (a b c : string) : (a +:+ b) +:+ c = a +:+ b +:+ c.
Proof.
  induction a as [|d a IH]; [done|]. by rewrite !append_cons, IH.
Qed.

Lemma nonempty_append a b : nonempty (a +:+ b) = nonempty a || nonempty b.
Proof. by destruct a. Qed.

Lemma rmatch_ext r : ∀ k1 k2 b s,
  (∀ b' s', k1 b' s' = k2 b' s') → rmatch r k1 b s = rmatch r k2 b s.
Proof.
  induction r as [| | |c| |r1 IH1 r2 IH2|r1 IH1 r2 IH2|r1 IH1];
    intros k1 k2 b s Hk; cbn; rewrite ?Hk; try done.
  - destruct s; by rewrite ?Hk.
  - destruct s; by rewrite ?Hk.
  - apply IH1. intros b' s'. by apply IH2.
  - by rewrite (IH1 k1 k2), (IH2 k1 k2).
  - by rewrite (IH1 k1 k2).
Qed.

(** The matcher on a pattern without anchors: it succeeds exactly when the
    pattern matches a prefix and the continuation accepts the rest; the
    continuation is told that it is still at the start of the input only
    if nothing was consumed. *)
Lemma rmatch_lang r : anchor_free r = true → ∀ k b s,
  rmatch r k b s = true ↔
  ∃ m rest, s = m +:+ rest ∧ lang r m ∧ k (b && negb (nonempty m)) rest = true.
Proof.
  induction r as [| | |c| |r1 IH1 r2 IH2|r1 IH1 r2 IH2|r1 IH1];
    intros Haf k b s; cbn in *; try done.
  - (* Eps *) split.
    + intros Hk. exists EmptyString, s. by rewrite andb_true_r.
    + intros (m & rest & -> & -> & Hk). by rewrite andb_true_r in Hk.
  - (* Chr *) destruct s as [|d s].
    + split; [done|]. by intros (m & rest & Hs & (d & -> & _) & _).
    + rewrite andb_true_iff, Ascii.eqb_eq. split.
      * intros [Hc Hk]. exists (String d EmptyString), s.
        rewrite andb_false_r. eauto.
      * intros (m & rest & Hs & (d' & -> & Hc) & Hk).
        rewrite andb_false_r in Hk. by injection Hs as -> ->.
  - (* Sep *) destruct s as [|d s].
    + split; [done|]. by intros (m & rest & Hs & (d & -> & _) & _).
    + rewrite andb_true_iff. split.
      * intros [Hc Hk]. exists (String d EmptyString), s.
        rewrite andb_false_r. eauto.
      * intros (m & rest & Hs & (d' & -> & Hc) & Hk).
        rewrite andb_false_r in Hk. by injection Hs as -> ->.
  - (* Cat *) apply andb_prop in Haf as [Haf1 Haf2].
    rewrite (IH1 Haf1). split.
    + intros (m1 & rest1 & -> & Hm1 & Hk).
      apply (IH2 Haf2) in Hk as (m2 & rest & -> & Hm2 & Hk).
      exists (m1 +:+ m2), rest. rewrite append_assoc. split; [done|].
      split; [by exists m1, m2|].
      by rewrite nonempty_append, negb_orb, andb_assoc.
    + intros (m & rest & -> & (m1 & m2 & -> & Hm1 & Hm2) & Hk).
      exists m1, (m2 +:+ rest). rewrite append_assoc. split; [done|].
      split; [done|]. apply (IH2 Haf2). exists m2, rest. split; [done|].
      split; [done|]. by rewrite nonempty_append, negb_orb, andb_assoc in Hk.
  - (* Alt *) apply andb_prop in Haf as [Haf1 Haf2].
    rewrite orb_true_iff, (IH1 Haf1), (IH2 Haf2). split.
    + intros [(m & rest & ? & ? & ?)|(m & rest & ? & ? & ?)];
        exists m, rest; eauto.
    + intros (m & rest & ? & [?|?] & ?); [left|right]; exists m, rest; eauto.
  - (* Opt *) rewrite orb_true_iff, (IH1 Haf). split.
    + intros [(m & rest & ? & ? & ?)|Hk].
      * exists m, rest. eauto.
      * exists EmptyString, s. rewrite andb_true_r. eauto.
    + intros (m & rest & -> & [->|Hm] & Hk).
      * right. by rewrite andb_true_r in Hk.
      * left. exists m, rest. eauto.
Qed.

(** [test] tries every position; only the first one is the start of the
    input. *)
Lemma test_from_spec r : ∀ s b,
  test_from r b s = true ↔
  ∃ pre suf, s = pre +:+ suf
             ∧ match_here r (b && negb (nonempty pre)) suf = true.
Proof.
  induction s as [|c s IH]; intros b; cbn; rewrite orb_true_iff.
  - split.
    + intros [H|H]; [|done]. exists EmptyString, EmptyString.
      by rewrite andb_true_r.
    + intros (pre & suf & Hs & H). left.
      destruct pre; [|by rewrite append_cons in Hs].
      rewrite append_nil in Hs. subst suf.
      by rewrite andb_true_r in H.
  - rewrite IH. split.
    + intros [H|(pre & suf & -> & H)].
      * exists EmptyString, (String c s). by rewrite andb_true_r.
      * exists (String c pre), suf. split; [done|]. by rewrite andb_false_r.
    + intros (pre & suf & Hs & H). destruct pre as [|c' pre].
      * left. rewrite append_nil in Hs. subst suf.
        by rewrite andb_true_r in H.
      * right. rewrite append_cons in Hs. injection Hs as -> ->.
        exists pre, suf. split; [done|]. by rewrite andb_false_r in H.
Qed.

Lemma rmatch_trail b s :
  rmatch trail (λ _ _, true) b s = true ↔ boundary_after s.
Proof.
  unfold trail, boundary_after. cbn. destruct s as [|d s]; cbn.
  - split; [by left|done].
  - rewrite orb_false_r, andb_true_r. split.
    + intros Hd. right. eauto.
    + by intros [|(c & post & [= -> ->] & Hc)].
Qed.

(** The tokens followed by the closing boundary, as the source nests
    them. *)
Lemma rmatch_cat_trail toks : ∀ k b s,
  rmatch (cat (toks ++ [trail])) k b s
  = rmatch (cat toks) (rmatch trail k) b s.
Proof.
  induction toks as [|t toks IH]; intros k b s; [done|].
  destruct toks as [|t' toks]; [done|].
  change (rmatch t (rmatch (cat ((t' :: toks) ++ [trail])) k) b s
          = rmatch t (rmatch (cat (t' :: toks)) (rmatch trail k)) b s).
  apply rmatch_ext. intros b' s'. apply IH.
Qed.

Lemma boundary_before_snoc pre c :
  is_sep c = true → boundary_before (pre +:+ String c EmptyString).
Proof. intros Hc. right. eauto. Qed.

(** A pattern made of [(?:^|[_\-\s])], tokens without anchors and
    [(?:[_\-\s]|$)] finds exactly the delimited occurrences of its
    tokens. *)
Lemma test_delimited toks s :
  anchor_free (cat toks) = true →
  test (cat (lead :: toks ++ [trail])) s = true
  ↔ occurs_delimited (lang (cat toks)) s.
Proof.
  intros Haf. unfold test. rewrite test_from_spec. unfold match_here.
  assert (∀ b s', rmatch (cat (lead :: toks ++ [trail])) (λ _ _, true) b s'
                   = rmatch lead (rmatch (cat toks)
                                    (rmatch trail (λ _ _, true))) b s')
    as Hshape.
  { intros b s'. destruct toks as [|t toks]; [done|].
    change (rmatch lead (rmatch (cat ((t :: toks) ++ [trail])) (λ _ _, true))
              b s' = rmatch lead (rmatch (cat (t :: toks))
                                    (rmatch trail (λ _ _, true))) b s').
    apply rmatch_ext. intros b' s''. apply rmatch_cat_trail. }
  assert (∀ b s', rmatch (cat toks) (rmatch trail (λ _ _, true)) b s' = true
                   ↔ ∃ m post, s' = m +:+ post ∧ lang (cat toks) m
                               ∧ boundary_after post) as Hbody.
  { intros b s'. rewrite (rmatch_lang _ Haf). split.
    - intros (m & post & -> & Hm & Hk). apply rmatch_trail in Hk. eauto.
    - intros (m & post & -> & Hm & Hk). exists m, post.
      split; [done|]. split; [done|]. by apply rmatch_trail. }
  split.
  - intros (pre & suf & -> & H). rewrite Hshape in H. unfold lead in H.
    cbn in H. apply orb_prop in H as [H|H].
    + apply andb_prop in H as [Hb H]. apply Hbody in H as (m & post & -> & Hm & Hp).
      destruct pre; [|done]. exists EmptyString, m, post.
      split; [done|]. split; [done|]. split; [by left|done].
    + destruct suf as [|d suf]; [done|]. apply andb_prop in H as [Hd H].
      apply Hbody in H as (m & post & -> & Hm & Hp).
      exists (pre +:+ String d EmptyString), m, post.
      rewrite append_assoc, append_cons, append_nil. split; [done|].
      split; [done|]. split; [by apply boundary_before_snoc|done].
  - intros (pre & m & post & -> & Hm & [->|(pre' & c & -> & Hc)] & Hp).
    + exists EmptyString, (m +:+ post). split; [done|]. rewrite Hshape.
      unfold lead. cbn. apply orb_true_iff. left. apply Hbody. eauto.
    + exists pre', (String c (m +:+ post)).
      rewrite append_assoc, append_cons, append_nil. split; [done|].
      rewrite Hshape. unfold lead. cbn. apply orb_true_iff. right.
      rewrite Hc. cbn. apply Hbody. eauto.
Qed.

Lemma anchor_free_lit w : anchor_free (lit w) = true.
Proof.
  induction w as [|c w IH]; [done|]. destruct w; [done|]. cbn in *.
  by rewrite IH.
Qed.

Lemma lang_lit w : ∀ m, lang (lit w) m ↔ spells m w.
Proof.
  induction w as [|c w IH]; intros m.
  - cbn. split; [by intros ->|by destruct m].
  - destruct w as [|c' w].
    + cbn. split.
      * by intros (d & -> & Hd).
      * destruct m as [|d [|]]; try done. cbn. intros [Hd _]. eauto.
        intros [_ []].
    + change (lit (String c (String c' w)))
        with (Cat (Chr c) (lit (String c' w))).
      cbn [lang]. split.
      * intros (m1 & m2 & -> & (d & -> & Hd) & Hm2). apply IH in Hm2.
        by split.
      * destruct m as [|d m]; [done|]. intros [Hd Hm].
        exists (String d EmptyString), m. split; [done|].
        split; [eauto|]. by apply IH.
Qed.

Lemma occurs_delimited_iff (P Q : string → Prop) s :
  (∀ m, P m ↔ Q m) → occurs_delimited P s ↔ occurs_delimited Q s.
Proof.
  intros HPQ. unfold occurs_delimited.
  split; intros (pre & m & post & ? & ? & ?); exists pre, m, post;
    (split; [done|]); (split; [by apply HPQ|done]).
Qed.

Lemma lang_long_form sign rest axis m :
  lang (cat [lit sign; Opt (lit rest); Opt Sep; lit axis]) m
  ↔ long_token sign rest axis m.
Proof.
  unfold long_token. cbn [cat lang]. split.
  - intros (m1 & mA & -> & H1 & m2 & mB & -> & H2 & m3 & m4 & -> & H3 & H4).
    exists m1, m2, m3, m4. rewrite <-!lang_lit. done.
  - intros (m1 & m2 & m3 & m4 & -> & H1 & H2 & H3 & H4).
    rewrite <-!lang_lit in *.
    exists m1, (m2 +:+ m3 +:+ m4). split; [done|]. split; [done|].
    exists m2, (m3 +:+ m4). split; [done|]. split; [done|].
    by exists m3, m4.
Qed.

(** ** The classifier: properties *)

(** A rule of the first three families finds exactly the delimited
    spellings of its token. *)
Lemma test_token (t : Token) (s : string) :
  test (token_regex t) s = true ↔ occurs_delimited (token_spelled t) s.
Proof.
  destruct t as [w|w1 w2|sign rest axis]; cbn [token_regex token_spelled].
  - change (bounded w) with (cat (lead :: [lit w] ++ [trail])).
    rewrite test_delimited by apply anchor_free_lit.
    apply occurs_delimited_iff. intros m. apply lang_lit.
  - change (bounded2 w1 w2)
      with (cat (lead :: [Alt (lit w1) (lit w2)] ++ [trail])).
    rewrite test_delimited by (cbn; by rewrite !anchor_free_lit).
    apply occurs_delimited_iff. intros m. cbn. by rewrite !lang_lit.
  - change (long_form sign rest axis)
      with (cat (lead :: [lit sign; Opt (lit rest); Opt Sep; lit axis]
                   ++ [trail])).
    rewrite test_delimited by (cbn; by rewrite !anchor_free_lit).
    apply occurs_delimited_iff. intros m. apply lang_long_form.
Qed.

(** C3. The classifier tries its rules in one fixed order: the six long
    pos/neg-with-axis forms, then the six two-letter forms, then the six
    directional words, then the six unanchored sign+axis forms; it returns
    the face of the first rule that matches the normalized name, and no
    face when none matches.  The boundary requirement of the first three
    families: each of their eighteen rules matches a name exactly when the
    name contains a spelling of the rule's token with, on each side, the
    end of the name or one of [_], [-] and white space.  So "inbox.png" is
    unknown (no rule at all matches it), and so are "apx.png", "pxa.png"
    and "backup.png", whose tokens lack a boundary on one side, while
    "my-box_px.png" is Right, by the two-letter rule [px], which is the
    first rule that matches it and whose token stands between [_] and the
    end of the name.  "a-x_px.png" shows that the order decides: the
    fallback rule [-x] (Left) matches it as well, and the earlier rule
    [px] wins. *)
Theorem classify_first_matching_rule :
  (take 6 patterns = pos_neg_patterns
   ∧ take 6 (drop 6 patterns) = shorthand_patterns
   ∧ take 6 (drop 12 patterns) = directional_patterns
   ∧ drop 18 patterns = sign_patterns)
  ∧ (∀ filename f,
       detectFaceFromFilename filename = Some f ↔
       ∃ i r, patterns !! i = Some (r, f)
              ∧ test r (normalized filename) = true
              ∧ ∀ j r' f', j < i → patterns !! j = Some (r', f') →
                           test r' (normalized filename) = false)
  ∧ (∀ filename,
       detectFaceFromFilename filename = None ↔
       ∀ r f, (r, f) ∈ patterns → test r (normalized filename) = false)
  ∧ (take 18 patterns = (λ tf, (token_regex tf.1, tf.2)) <$> rule_tokens
     ∧ ∀ t s, test (token_regex t) s = true
              ↔ occurs_delimited (token_spelled t) s)
  ∧ detectFaceFromFilename "inbox.png" = None
  ∧ (detectFaceFromFilename "apx.png" = None
     ∧ detectFaceFromFilename "pxa.png" = None
     ∧ detectFaceFromFilename "backup.png" = None)
  ∧ detectFaceFromFilename "my-box_px.png" = Some FRight
  ∧ patterns !! 6 = Some (bounded "px", FRight)
  ∧ test (bounded "px") (normalized "my-box_px.png") = true
  ∧ (normalized "my-box_px.png" = "my-box_" +:+ "px" +:+ EmptyString
     ∧ boundary_before "my-box_" ∧ boundary_after EmptyString)
  ∧ (detectFaceFromFilename "a-x_px.png" = Some FRight
     ∧ test (lit "-x") (normalized "a-x_px.png") = true
     ∧ patterns !! 19 = Some (lit "-x", FLeft)).
Proof.
  split; [repeat split|].
  split; [intros; apply first_match_Some|].
  split; [intros; apply first_match_None|].
  split; [split; [reflexivity|apply test_token]|].
  split; [vm_compute; reflexivity|].
  split; [vm_compute; repeat split|].
  split; [vm_compute; reflexivity|].
  split; [reflexivity|].
  split; [vm_compute; reflexivity|].
  split.
  { split; [vm_compute; reflexivity|]. split; [|by left].
    right. exists "my-box", "_"%char. split; reflexivity. }
  vm_compute. repeat split.
Qed.

(** C9. Every pattern string the README documents for a face, and every
    long form of the specification (sign word, optional separator, axis),
    classifies to that face; "photo1" is unknown.  The classifier ignores
    case: names that differ only in the case of letters classify alike.
    It ignores the extension: a name without a dot classifies like the
    same name followed by a dot and any non-empty extension without a dot.
    So "PX.PNG", "px.jpg" and "px" all classify to Right. *)
Theorem classify_documented_patterns :
  Forall (λ '(f, ws), Forall (λ w, detectFaceFromFilename w = Some f) ws)
         (documented_patterns ++ documented_long_forms)
  ∧ detectFaceFromFilename "photo1" = None
  ∧ (∀ a b, same_ignoring_case a b →
            detectFaceFromFilename a = detectFaceFromFilename b)
  ∧ (∀ base ext, no_dot base = true → nonempty ext = true →
                 no_dot ext = true →
       detectFaceFromFilename (base +:+ "." +:+ ext)
       = detectFaceFromFilename base)
  ∧ same_ignoring_case "PX.PNG" "px.png"
  ∧ detectFaceFromFilename "PX.PNG" = Some FRight
  ∧ detectFaceFromFilename "px.jpg" = Some FRight
  ∧ detectFaceFromFilename "px" = Some FRight.
Proof.
  split; [apply classifies_as_sound; vm_compute; reflexivity|].
  split; [vm_compute; reflexivity|].
  split.
  { intros a b H. unfold detectFaceFromFilename.
    by rewrite (same_ignoring_case_lower a b H). }
  split.
  { intros base ext Hb Hne Hnd. unfold detectFaceFromFilename.
    rewrite !toLowerCase_app.
    rewrite removeExtension_app
      by (by rewrite ?nonempty_toLowerCase, ?no_dot_toLowerCase).
    by rewrite removeExtension_no_dot by (by rewrite no_dot_toLowerCase). }
  vm_compute. repeat split.
Qed.

(** ** The slot engine: lemmas *)

#[local] Arguments detectFaceFromFilename : simpl never.
#[local] Arguments placeDetected : simpl never.
#[local] Arguments placeSequential : simpl never.


Lemma findIndex_from_Some {A} (p : A → nat → bool) i l e :
  findIndex_from p i l = Some e →
  i ≤ e ∧ (∃ x, l !! (e - i) = Some x ∧ p x e = true)
  ∧ ∀ k x, k < e - i → l !! k = Some x → p x (i + k) = false.
Proof.
  revert i. induction l as [|y l IH]; intros i; simpl; [done|].
  destruct (p y i) eqn:Hp.
  - intros [= <-]. replace (i - i) with 0 by lia.
    repeat split; [lia|by exists y|]. intros; lia.
  - intros H. destruct (IH _ H) as (Hle & (x & Hx & Hpx) & Hbefore).
    split; [lia|]. split.
    + exists x. split; [|done].
      replace (e - i) with (S (e - S i)) by lia. done.
    + intros [|k] z Hk Hz; simpl in Hz.
      * inversion Hz; subst. by rewrite Nat.add_0_r.
      * replace (i + S k) with (S i + k) by lia.
        apply (Hbefore k z); [lia|done].
Qed.

Lemma findIndex_from_None {A} (p : A → nat → bool) i l :
  findIndex_from p i l = None →
  ∀ k x, l !! k = Some x → p x (i + k) = false.
Proof.
  revert i. induction l as [|y l IH]; intros i; simpl; [done|].
  destruct (p y i) eqn:Hp; [done|]. intros H [|k] x Hx; simpl in Hx.
  - inversion Hx; subst. by rewrite Nat.add_0_r.
  - replace (i + S k) with (S i + k) by lia. by apply IH.
Qed.

(** [prev.map((slot, i) => i === e ? { ...slot, image } : slot)] changes
    the slot at index [e] and nothing else. *)
Lemma imap_update_at (g : FaceSlot → FaceSlot) e (l : list FaceSlot) x :
  l !! e = Some x →
  imap (λ i slot, if decide (i = e) then g slot else slot) l = <[e := g x]> l.
Proof.
  intros He. apply list_eq. intros k. rewrite list_lookup_imap.
  destruct (decide (k = e)) as [->|Hne].
  - rewrite He, list_lookup_insert_eq by (by eapply lookup_lt_Some).
    done.
  - rewrite list_lookup_insert_ne by done. by destruct (l !! k).
Qed.

Lemma imap_update_none (g : FaceSlot → FaceSlot) e (l : list FaceSlot) :
  l !! e = None →
  imap (λ i slot, if decide (i = e) then g slot else slot) l = l.
Proof.
  intros He. apply list_eq. intros k. rewrite list_lookup_imap.
  destruct (l !! k) eqn:Hk; cbn; [|done].
  rewrite decide_False; [done|]. intros ->. congruence.
Qed.

(** An update that only replaces images keeps every slot's face. *)
Lemma imap_keeps_faces (f : nat → FaceSlot → FaceSlot) (l : list FaceSlot) :
  (∀ i x, face (f i x) = face x) → face <$> imap f l = face <$> l.
Proof.
  intros Hf. apply list_eq. intros k.
  rewrite !list_lookup_fmap, list_lookup_imap.
  destruct (l !! k); simpl; [|done]. by rewrite Hf.
Qed.

Lemma assignAt_faces index img prev :
  face <$> assignAt index img prev = face <$> prev.
Proof. apply imap_keeps_faces. intros i x. by case_decide. Qed.

Lemma placeDetected_faces fc img prev :
  face <$> placeDetected fc img prev = face <$> prev.
Proof.
  unfold placeDetected. destruct fc as [f|].
  - rewrite <-list_fmap_compose. apply list_fmap_ext.
    intros i x _. simpl. by case_decide.
  - destruct (findIndex _ prev); [|done].
    apply imap_keeps_faces. intros i x. by case_decide.
Qed.

Lemma placeSequential_faces i img prev :
  face <$> placeSequential i img prev = face <$> prev.
Proof.
  apply imap_keeps_faces. intros k x. by destruct (_ && _).
Qed.

(** Detected mode, known face. *)
Lemma placeDetected_known fc img prev :
  written_to_face fc img prev (placeDetected (Some fc) img prev).
Proof.
  unfold placeDetected. split; [by rewrite length_fmap|].
  intros k slot Hk. rewrite list_lookup_fmap, Hk. simpl.
  case_decide as Hf; [|done]. by rewrite <-Hf.
Qed.

(** Detected mode, unknown face. *)
Lemma placeDetected_unknown img prev :
  placed_first_empty img prev (placeDetected None img prev).
Proof.
  unfold placeDetected, findIndex.
  destruct (findIndex_from _ 0 prev) as [e|] eqn:Hfind.
  - left. exists e.
    destruct (findIndex_from_Some _ _ _ _ Hfind)
      as (_ & (x & Hx & Hpx) & Hbefore).
    rewrite Nat.sub_0_r in Hx, Hbefore. apply negb_true_iff in Hpx.
    split.
    + split; [lia|]. split; [by exists x|].
      intros k slot Hk Hs. specialize (Hbefore k slot ltac:(lia) Hs).
      by apply negb_false_iff in Hbefore.
    + exists x. split; [done|].
      by apply (imap_update_at (λ slot, with_image slot (Some img))).
  - right. split; [|done]. intros k slot _ Hs.
    pose proof (findIndex_from_None _ _ _ Hfind k slot Hs) as H.
    by apply negb_false_iff in H.
Qed.

(** Sequential mode. *)
Lemma placeSequential_spec i img prev :
  placed_sequentially i img prev (placeSequential i img prev).
Proof.
  unfold placeSequential, findIndex.
  destruct (findIndex_from _ 0 prev) as [e|] eqn:Hfind; simpl.
  - left. exists e.
    destruct (findIndex_from_Some _ _ _ _ Hfind)
      as (_ & (x & Hx & Hpx) & Hbefore).
    rewrite Nat.sub_0_r in Hx, Hbefore.
    apply andb_prop in Hpx as [Hempty Hge].
    apply negb_true_iff in Hempty. apply bool_decide_eq_true in Hge.
    split.
    + split; [done|]. split; [by exists x|].
      intros k slot Hk Hs. specialize (Hbefore k slot ltac:(lia) Hs).
      simpl in Hbefore. rewrite bool_decide_eq_true_2 in Hbefore by lia.
      rewrite andb_true_r in Hbefore. by apply negb_false_iff in Hbefore.
    + exists x. split; [done|].
      rewrite <-(imap_update_at (λ slot, with_image slot (Some img))) by done.
      apply imap_ext. intros k slot Hs. simpl.
      destruct (decide (k = e)) as [->|Hne].
      * rewrite bool_decide_eq_true_2 by done.
        assert (slot = x) as -> by congruence. by rewrite Hempty.
      * by rewrite bool_decide_eq_false_2.
  - right.
    assert (no_empty_from i prev) as Hnone.
    { intros k slot Hk Hs.
      pose proof (findIndex_from_None _ _ _ Hfind k slot Hs) as H.
      simpl in H. rewrite bool_decide_eq_true_2 in H by lia.
      rewrite andb_true_r in H. by apply negb_false_iff in H. }
    split; [done|]. right. split.
    + intros slot Hs. by apply (Hnone i slot).
    + apply list_eq. intros k. rewrite list_lookup_imap.
      destruct (prev !! k) as [slot|] eqn:Hs; simpl; [|done].
      destruct (bool_decide (k = i)) eqn:Hk; simpl; [|done].
      apply bool_decide_eq_true in Hk as ->.
      by rewrite (Hnone i slot).
Qed.

(** Sequential mode never touches a slot that holds an image. *)
Lemma placeSequential_keeps_filled i img prev k slot :
  prev !! k = Some slot → filled slot = true →
  placeSequential i img prev !! k = Some slot.
Proof.
  intros Hs Hf. unfold placeSequential. rewrite list_lookup_imap, Hs. simpl.
  by rewrite Hf, andb_false_r.
Qed.

Lemma hasDetectedFaces_false (fs : list File) :
  Forall (λ f, detectFaceFromFilename (name f) = None) fs →
  existsb (λ m : File * option CubeFace, bool_decide (m.2 ≠ None))
    ((λ f, (f, detectFaceFromFilename (name f))) <$> fs) = false.
Proof.
  induction 1 as [|f fs Hf _ IH]; [done|].
  rewrite fmap_cons. cbn [existsb]. rewrite IH, orb_false_r.
  apply bool_decide_eq_false_2. by intros [].
Qed.

Lemma hasDetectedFaces_true (fs : list File) :
  Exists (λ f, detectFaceFromFilename (name f) ≠ None) fs →
  existsb (λ m : File * option CubeFace, bool_decide (m.2 ≠ None))
    ((λ f, (f, detectFaceFromFilename (name f))) <$> fs) = true.
Proof.
  induction 1 as [f fs Hf|f fs _ IH]; rewrite fmap_cons; cbn [existsb].
  - by rewrite bool_decide_eq_true_2.
  - rewrite IH. apply orb_true_r.
Qed.

Lemma handleBulkUpload_sequential (files : list File) :
  Forall (λ f, detectFaceFromFilename (name f) = None) files →
  handleBulkUpload (Some files)
  = imap (λ i f, placeSequential i (dataURL f)) (take 6 files).
Proof.
  intros H. unfold handleBulkUpload.
  by rewrite hasDetectedFaces_false by (by apply Forall_take).
Qed.

Lemma handleBulkUpload_detected (files : list File) :
  Exists (λ f, detectFaceFromFilename (name f) ≠ None) (take 6 files) →
  handleBulkUpload (Some files)
  = (λ f, placeDetected (detectFaceFromFilename (name f)) (dataURL f))
      <$> take 6 files.
Proof.
  intros H. unfold handleBulkUpload.
  rewrite hasDetectedFaces_true by done. by rewrite <-list_fmap_compose.
Qed.

Lemma complete_cons u us s : complete (u :: us) s = complete us (u s).
Proof. done. Qed.

(** Completion of any reads keeps what each of them keeps. *)
Lemma complete_preserves (P : list FaceSlot → Prop) us s :
  Forall (λ u : Update, ∀ s', P s' → P (u s')) us → P s → P (complete us s).
Proof.
  intros H. revert s. induction H as [|u us Hu _ IH]; intros s Hs; [done|].
  rewrite complete_cons. apply IH. by apply Hu.
Qed.

Lemma with_image_id d : with_image d (image d) = d.
Proof. by destruct d. Qed.

(** The exchange, slot by slot. *)
Lemma swapImages_lookup (s : list FaceSlot) i j d t :
  s !! i = Some d → s !! j = Some t →
  ∃ s', swapImages i j s = Some s'
    ∧ length s' = length s
    ∧ ∀ k, s' !! k =
           if decide (k = j) then Some (with_image t (image d))
           else if decide (k = i) then Some (with_image d (image t))
           else s !! k.
Proof.
  intros Hi Hj. unfold swapImages. rewrite Hi, Hj. cbn.
  pose proof (lookup_lt_Some _ _ _ Hi) as Hli.
  pose proof (lookup_lt_Some _ _ _ Hj) as Hlj.
  destruct (decide (i = j)) as [->|Hne].
  - assert (t = d) as -> by congruence.
    rewrite list_lookup_insert_eq by done. cbn.
    eexists. split; [done|]. split; [by rewrite !length_insert|].
    intros k. rewrite list_insert_insert_eq.
    destruct (decide (k = j)) as [->|Hk].
    + by rewrite list_lookup_insert_eq.
    + by rewrite list_lookup_insert_ne.
  - rewrite list_lookup_insert_ne, Hj by done. cbn.
    eexists. split; [done|]. split; [by rewrite !length_insert|].
    intros k. destruct (decide (k = j)) as [->|Hk].
    + by rewrite list_lookup_insert_eq by (by rewrite length_insert).
    + rewrite list_lookup_insert_ne by done.
      destruct (decide (k = i)) as [->|Hk'].
      * by rewrite list_lookup_insert_eq.
      * by rewrite list_lookup_insert_ne.
Qed.

(** ** The slot engine: properties *)

(** Every completion order of a list of reads, case by case. *)
Ltac each_order H :=
  apply permutations_Permutation in H; cbn in H;
  repeat (apply elem_of_cons in H as [->|H]);
  [..|by apply elem_of_nil in H].

(** C1.  The call looks at the first six files only.
    When one of those names a face, it starts one read per file among
    those six; when the read of a file completes, a file that names a face
    has its image written into that face's slot, whatever the slot held,
    and a file of unknown face goes to the first slot in canonical order
    that is empty at that moment, or is dropped when none is empty.  No
    update changes a slot's face.  Against all-empty slots "sky_px.png"
    and "sky_nx.png" end in Right and Left, in either input order and in
    either completion order. *)
Theorem bulk_detected_mode (files : list File) :
  Exists (λ f, detectFaceFromFilename (name f) ≠ None) (take 6 files) →
  handleBulkUpload (Some files)
  = (λ f, placeDetected (detectFaceFromFilename (name f)) (dataURL f))
      <$> take 6 files
  ∧ (∀ i f prev, take 6 files !! i = Some f →
       match detectFaceFromFilename (name f) with
       | Some fc =>
           written_to_face fc (dataURL f) prev
             (file_effect (handleBulkUpload (Some files)) i prev)
       | None =>
           placed_first_empty (dataURL f) prev
             (file_effect (handleBulkUpload (Some files)) i prev)
       end)
  ∧ (∀ i prev,
       face <$> file_effect (handleBulkUpload (Some files)) i prev
       = face <$> prev)
  ∧ (∀ cs, cs ≡ₚ handleBulkUpload (Some sky_files) →
       complete cs INITIAL_SLOTS
       = slots_with None (Some "NX") None (Some "PX") None None)
  ∧ (∀ cs, cs ≡ₚ handleBulkUpload (Some (reverse sky_files)) →
       complete cs INITIAL_SLOTS
       = slots_with None (Some "NX") None (Some "PX") None None).
Proof.
  intros Hdet. pose proof (handleBulkUpload_detected files Hdet) as Hus.
  split; [done|]. rewrite Hus. split; [|split; [|split]].
  - intros i f prev Hf. unfold file_effect.
    rewrite list_lookup_fmap, Hf. cbn.
    destruct (detectFaceFromFilename (name f)) as [fc|].
    + apply placeDetected_known.
    + apply placeDetected_unknown.
  - intros i prev. unfold file_effect. rewrite list_lookup_fmap.
    destruct (take 6 files !! i); cbn; [|done]. apply placeDetected_faces.
  - intros cs Hcs.
    assert (handleBulkUpload (Some sky_files)
            = [placeDetected (Some FRight) "PX"; placeDetected (Some FLeft) "NX"])
      as Heq by (vm_compute; reflexivity).
    rewrite Heq in Hcs. apply symmetry in Hcs.
    each_order Hcs; vm_compute; reflexivity.
  - intros cs Hcs.
    assert (handleBulkUpload (Some (reverse sky_files))
            = [placeDetected (Some FLeft) "NX"; placeDetected (Some FRight) "PX"])
      as Heq by (vm_compute; reflexivity).
    rewrite Heq in Hcs. apply symmetry in Hcs.
    each_order Hcs; vm_compute; reflexivity.
Qed.

(** The two sky files: the first names a face. *)
Lemma bulk_detected_mode_witness :
  handleBulkUpload (Some sky_files)
  = (λ f, placeDetected (detectFaceFromFilename (name f)) (dataURL f))
      <$> take 6 sky_files.
Proof.
  refine (proj1 (bulk_detected_mode sky_files _)).
  apply Exists_cons_hd. vm_compute. discriminate.
Defined.

(** Files past the sixth take no part in a call: of [seven_files] only the
    seventh, "px.png", names a face (Right), yet the call starts six reads,
    none for it, and they are the sequential ones.  Its image is not
    written into the Right slot: once every read has completed the Right
    slot holds the image of "d.png". *)
Lemma bulk_ignores_seventh_file :
  seven_files !! 6 = Some (file "px.png" "PX")
  ∧ detectFaceFromFilename "px.png" = Some FRight
  ∧ handleBulkUpload (Some seven_files)
    = imap (λ i f, placeSequential i (dataURL f)) (take 6 seven_files)
  ∧ handleBulkUpload (Some seven_files) !! 6 = None
  ∧ ¬ written_to_face FRight "PX" INITIAL_SLOTS
        (file_effect (handleBulkUpload (Some seven_files)) 6 INITIAL_SLOTS)
  ∧ image_of FRight
      (complete (handleBulkUpload (Some seven_files)) INITIAL_SLOTS)
    = Some "D".
Proof.
  split; [reflexivity|]. split; [vm_compute; reflexivity|].
  split; [vm_compute; reflexivity|]. split; [vm_compute; reflexivity|].
  split; [|vm_compute; reflexivity].
  intros [_ H]. specialize (H 3 _ eq_refl). vm_compute in H. discriminate.
Qed.

(** C4. When no file names a face, the call starts the sequential reads
    of its first six files.  When its read completes, the [i]-th file is
    placed at the first empty slot at index [i] or later if there is one,
    otherwise at index [i] only if that slot is empty (a file past the
    sixth meets no slot and is not placed).  Whatever reads complete, in
    whatever order, a slot that held an image still holds the same image,
    and no slot changes its face.  Against all-empty slots "a.png",
    "b.png", "c.png" end in the first three canonical slots, in every
    completion order. *)
Theorem bulk_sequential_mode (files : list File) :
  Forall (λ f, detectFaceFromFilename (name f) = None) files →
  handleBulkUpload (Some files)
  = imap (λ i f, placeSequential i (dataURL f)) (take 6 files)
  ∧ (∀ i f prev, files !! i = Some f → length prev = 6 →
       placed_sequentially i (dataURL f) prev
         (file_effect (handleBulkUpload (Some files)) i prev))
  ∧ (∀ cs prev k slot,
       cs ⊆+ handleBulkUpload (Some files) →
       prev !! k = Some slot → filled slot = true →
       complete cs prev !! k = Some slot)
  ∧ (∀ cs prev,
       cs ⊆+ handleBulkUpload (Some files) →
       face <$> complete cs prev = face <$> prev)
  ∧ (∀ cs, cs ≡ₚ handleBulkUpload (Some abc_files) →
       complete cs INITIAL_SLOTS
       = slots_with (Some "A") (Some "B") (Some "C") None None None).
Proof.
  intros Hnone. pose proof (handleBulkUpload_sequential files Hnone) as Hus.
  split; [done|]. rewrite Hus.
  assert (∀ cs, cs ⊆+ imap (λ i f, placeSequential i (dataURL f)) (take 6 files) →
            Forall (λ u : Update, ∃ i img, u = placeSequential i img) cs)
    as Hall.
  { intros cs Hcs. apply Forall_forall. intros u Hu.
    apply (elem_of_submseteq _ _ _ Hu) in Hcs.
    apply elem_of_lookup_imap in Hcs as (i & f & -> & _). eauto. }
  split; [|split; [|split]].
  - intros i f prev Hf Hlen. unfold file_effect. rewrite list_lookup_imap.
    destruct (decide (i < 6)) as [Hlt|Hge].
    + rewrite lookup_take_lt, Hf by done. cbn. apply placeSequential_spec.
    + rewrite lookup_take_ge by lia. cbn. right.
      assert (∀ k, i ≤ k → prev !! k = None) as Hout.
      { intros k Hk. apply lookup_ge_None. lia. }
      split; [intros k slot Hk Hs; rewrite Hout in Hs; done|].
      right. split; [|done]. intros slot Hs. rewrite Hout in Hs; done.
  - intros cs prev k slot Hcs Hk Hfilled.
    apply (complete_preserves (λ s, s !! k = Some slot)); [|done].
    eapply Forall_impl; [by apply Hall|].
    intros u (i & img & ->) s' Hs'. by apply placeSequential_keeps_filled.
  - intros cs prev Hcs.
    apply (complete_preserves (λ s, face <$> s = face <$> prev)); [|done].
    eapply Forall_impl; [by apply Hall|].
    intros u (i & img & ->) s' Hs'. by rewrite placeSequential_faces.
  - intros cs Hcs.
    assert (handleBulkUpload (Some abc_files)
            = [placeSequential 0 "A"; placeSequential 1 "B";
               placeSequential 2 "C"])
      as Heq by (vm_compute; reflexivity).
    rewrite Heq in Hcs. apply symmetry in Hcs.
    each_order Hcs; vm_compute; reflexivity.
Qed.

(** The three files "a.png", "b.png", "c.png": none names a face. *)
Lemma bulk_sequential_mode_witness :
  handleBulkUpload (Some abc_files)
  = imap (λ i f, placeSequential i (dataURL f)) (take 6 abc_files).
Proof.
  refine (proj1 (bulk_sequential_mode abc_files _)).
  repeat constructor.
Defined.

(** C5. For valid slot indices [i] and [j] and any slots, the exchange
    succeeds and swaps only the images of the two slots: every slot keeps
    its face, slot [i] gets the image slot [j] had and slot [j] the image
    slot [i] had, and every other slot is unchanged.  A drop of a dragged
    slot on a target slot performs exactly this exchange (nothing for
    [i = j], which the exchange leaves unchanged too).  Doing the exchange
    twice gives back the original slots. *)
Theorem swap_is_an_involution (s : list FaceSlot) (i j : nat) :
  i < length s → j < length s →
  ∃ s', swapImages i j s = Some s'
    ∧ face <$> s' = face <$> s
    ∧ (image <$> s') !! i = (image <$> s) !! j
    ∧ (image <$> s') !! j = (image <$> s) !! i
    ∧ (∀ k, k ≠ i → k ≠ j → s' !! k = s !! k)
    ∧ (∀ dragging,
         handleDrop {| slots := s; draggedIndex := Some i;
                       isDraggingFile := dragging |} j []
         = Some ({| slots := s'; draggedIndex := None;
                    isDraggingFile := false |}, []))
    ∧ swapImages i j s' = Some s.
Proof.
  intros Hi Hj.
  destruct (lookup_lt_is_Some_2 s i Hi) as [d Hd].
  destruct (lookup_lt_is_Some_2 s j Hj) as [t Ht].
  destruct (swapImages_lookup s i j d t Hd Ht) as (s' & Hswap & Hlen & Hlook).
  assert (i = j → s' = s) as Hsame.
  { intros ->. apply list_eq. intros k. rewrite Hlook.
    assert (t = d) as -> by congruence. rewrite with_image_id.
    repeat case_decide; by subst. }
  exists s'. split; [done|]. split; [|split; [|split; [|split; [|split]]]].
  - apply list_eq. intros k. rewrite !list_lookup_fmap, Hlook.
    repeat case_decide; subst; by rewrite ?Hd, ?Ht.
  - rewrite !list_lookup_fmap, Hlook, Ht.
    case_decide; [|by rewrite decide_True].
    subst. by assert (t = d) as -> by congruence.
  - rewrite !list_lookup_fmap, Hlook, Hd. by rewrite decide_True.
  - intros k Hki Hkj. rewrite Hlook. by rewrite !decide_False.
  - intros dragging. unfold handleDrop. cbn.
    case_decide as Hne; [by rewrite Hswap|]. rewrite Hsame; [done|].
    by destruct (decide (i = j)).
  - assert (s' !! i = Some (if decide (i = j) then with_image t (image d)
                            else with_image d (image t))) as Hi'.
    { rewrite Hlook. by repeat case_decide. }
    assert (s' !! j = Some (with_image t (image d))) as Hj'.
    { rewrite Hlook. by rewrite decide_True. }
    destruct (swapImages_lookup s' i j _ _ Hi' Hj') as (s'' & Hswap' & _ & Hlook').
    rewrite Hswap'. f_equal. apply list_eq. intros k.
    rewrite Hlook', Hlook.
    destruct (decide (i = j)) as [->|Hne];
      [assert (t = d) as -> by congruence|];
      repeat case_decide; subst; cbn; rewrite ?with_image_id; try congruence.
    all: rewrite ?Hd, ?Ht; by destruct d, t.
Qed.

(** Top and Right exchanged, and exchanged back. *)
Lemma swap_is_an_involution_witness :
  ∃ s', swapImages 0 3
          (slots_with (Some "A") None None (Some "D") None None) = Some s'
    ∧ swapImages 0 3 s'
      = Some (slots_with (Some "A") None None (Some "D") None None).
Proof.
  destruct (swap_is_an_involution
              (slots_with (Some "A") None None (Some "D") None None) 0 3)
    as (s' & H1 & _ & _ & _ & _ & _ & H2); [simpl; lia..|].
  by exists s'.
Defined.

(** C10. A drop on the container with exactly one file (or none) starts
    no read and leaves the slots as they are; the container's drop handler
    starts reads only when more than one file is dropped, and then they
    are those of the bulk upload.  One file dropped on a slot starts
    exactly one read, the direct assignment to that slot, also after the
    event has bubbled to the container; the file's name plays no part, so
    "px.png" dropped on the Top slot ends in Top and not in Right. *)
Theorem single_file_drop (st : State) :
  (∀ f, handleGlobalDrop st [f]
        = ({| slots := slots st; draggedIndex := draggedIndex st;
              isDraggingFile := false |}, []))
  ∧ (∀ files, slots (handleGlobalDrop st files).1 = slots st)
  ∧ (∀ files, (handleGlobalDrop st files).2 ≠ [] → 1 < length files)
  ∧ (∀ files, 1 < length files →
              (handleGlobalDrop st files).2 = handleBulkUpload (Some files))
  ∧ (∀ target f,
       dropOnSlot st target [f]
       = Some ({| slots := slots st; draggedIndex := None;
                  isDraggingFile := false |},
               [assignAt target (dataURL f)]))
  ∧ (∀ target f g, dataURL f = dataURL g →
       dropOnSlot st target [f] = dropOnSlot st target [g])
  ∧ (∀ target f prev slot, prev !! target = Some slot →
       placed_at target (dataURL f) prev (assignAt target (dataURL f) prev))
  ∧ (∀ target img prev, face <$> assignAt target img prev = face <$> prev)
  ∧ detectFaceFromFilename "px.png" = Some FRight
  ∧ complete [assignAt 0 (dataURL (file "px.png" "PX"))] INITIAL_SLOTS
    = slots_with (Some "PX") None None None None None.
Proof.
  split; [done|]. split; [done|]. split.
  { intros files. unfold handleGlobalDrop. cbn.
    case_bool_decide; [done|]. by intros []. }
  split.
  { intros files H. unfold handleGlobalDrop. cbn.
    by rewrite bool_decide_eq_true_2. }
  split; [done|]. split.
  { intros target f g Heq. unfold dropOnSlot, handleDrop, handleFileChange.
    cbn. by rewrite Heq. }
  split.
  { intros target f prev slot Hs. exists slot. split; [done|].
    by apply (imap_update_at (λ slot, with_image slot (Some (dataURL f)))). }
  split; [apply assignAt_faces|].
  split; vm_compute; reflexivity.
Qed.

(** ** The layout registry: properties *)

Lemma registry_cell_mappings : Forall (λ kc, cell_mapping_ok kc.2) EXPORT_FORMATS.
Proof.
  repeat constructor; simpl.
  all: try (intros []; vm_compute; eexists; repeat split; congruence).
  all: intros [] []; vm_compute; congruence.
Qed.

(** C7. The registry holds exactly the six layouts [cross],
    [cross-vertical], [strip-horizontal], [strip-vertical], [grid-3x2] and
    [grid-2x3], one per value of [ExportFormat], with exactly the width,
    height and face cells the specification enumerates; in each of them
    the face-to-cell mapping is total over the six faces, injective, and
    every cell lies inside the width x height grid. *)
Theorem registry_six_layouts :
  EXPORT_FORMATS.*1 = format_key <$> all_formats
  ∧ NoDup EXPORT_FORMATS.*1
  ∧ (∀ fmt : ExportFormat, is_Some (prop (format_key fmt) EXPORT_FORMATS))
  ∧ geometry <$> EXPORT_FORMATS = documented_layouts
  ∧ Forall (λ kc, cell_mapping_ok kc.2) EXPORT_FORMATS.
Proof.
  split; [reflexivity|].
  split; [apply (bool_decide_unpack _); vm_compute; exact I|].
  split; [intros []; vm_compute; eauto|].
  split; [reflexivity|].
  apply registry_cell_mappings.
Qed.

(** ** The compositor: lemmas *)

Lemma prop_elem_of {K V} `{EqDecision K} (k : K) (entries : list (K * V)) v :
  prop k entries = Some v → (k, v) ∈ entries.
Proof.
  induction entries as [|[k' v'] entries IH]; simpl; [done|].
  case_decide as Hk.
  - intros [= <-]. subst. by left.
  - intros H'. right. by apply IH.
Qed.

Lemma registry_lookup fmt :
  ∃ cfg, prop (format_key fmt) EXPORT_FORMATS = Some cfg ∧ cell_mapping_ok cfg.
Proof.
  assert (is_Some (prop (format_key fmt) EXPORT_FORMATS)) as [cfg Hcfg]
    by (destruct fmt; vm_compute; eauto).
  exists cfg. split; [done|].
  pose proof (proj1 (Forall_forall _ _) registry_cell_mappings) as H.
  apply (H (format_key fmt, cfg)). by apply prop_elem_of.
Qed.

Lemma rasters_app es1 es2 : rasters (es1 ++ es2) = rasters es1 ++ rasters es2.
Proof. apply omap_app. Qed.

Lemma rasters_new_images (l : list FaceSlot) :
  rasters ((λ s, NewImage (default EmptyString (image s))) <$> l) = [].
Proof. by induction l. Qed.

Lemma elem_of_rasters c es : c ∈ rasters es ↔ ∃ mime, ToBlob c mime ∈ es.
Proof.
  unfold rasters. rewrite list_elem_of_omap. split.
  - intros ([] & Hin & Heq); try done. inversion Heq; subst. eauto.
  - intros (mime & Hin). by exists (ToBlob c mime).
Qed.

Lemma filter_filled_nil (slots : list FaceSlot) :
  Forall (λ s, filled s = false) slots →
  filter (λ s, filled s = true) slots = [].
Proof.
  induction 1 as [|x l Hx _ IH]; [done|].
  rewrite filter_cons_False by congruence. done.
Qed.

(** Nothing can happen to an export that waits for no image and for no
    encoder callback. *)
Lemma run_idle evs ex ex' :
  loading ex = [] → encoding ex = false → run evs ex = Some ex' →
  evs = [] ∧ ex' = ex.
Proof.
  intros Hl He. destruct evs as [|ev evs]; simpl; [by intros [= ->]|].
  destruct ev; simpl; rewrite ?Hl, ?He; done.
Qed.

Section invariant.
Context (slots : list FaceSlot) (fmt : ExportFormat) (cfg : FormatConfig).
Let images := filter (λ s, filled s = true) slots.
Hypothesis Hcfg : prop (format_key fmt) EXPORT_FORMATS = Some cfg.
Hypothesis Hsome : images ≠ [].

Lemma exportCubemap_invariant :
  ∃ ex0, exportCubemap slots fmt true = Some ex0
         ∧ loading ex0 = images
         ∧ export_invariant images fmt cfg [] [] ex0.
Proof.
  unfold exportCubemap. rewrite Hcfg. cbn. fold images.
  rewrite bool_decide_eq_false_2 by (by destruct images).
  eexists. split; [done|]. split; [done|].
  constructor; cbn; try done.
  - unfold output. cbn. rewrite rasters_new_images.
    rewrite decide_False; [done|]. by destruct images.
  - intros fn [Hin|[Hin|Hin]%elem_of_cons]%elem_of_cons; try done.
    apply list_elem_of_fmap in Hin as (? & ? & ?). done.
Qed.

Lemma fire_invariant ld fl ev ex ex' :
  export_invariant images fmt cfg ld fl ex →
  fire ev ex = Some ex' →
  ∃ ld' fl',
    export_invariant images fmt cfg ld' fl' ex'
    ∧ length fl' = length fl + (if decide (is_failure ev) then 1 else 0).
Proof.
  intros [Hperm Hdrawn Hloaded Htotal Hformat Hkey Hw Hh Hout Henc Hdl] Hfire.
  pose proof (Permutation_length Hperm) as Hlen.
  rewrite !length_app in Hlen.
  destruct ev as [i|i|blob]; simpl in Hfire.
  - (* the image at position [i] has loaded *)
    destruct (loading ex !! i) as [slot|] eqn:Hslot; [|done].
    cbn in Hfire. unfold onload in Hfire. cbn in Hfire.
    rewrite Hformat in Hfire.
    destruct (prop (face slot) (positions cfg)) as [pos|] eqn:Hpos; [|done].
    cbn in Hfire. injection Hfire as <-.
    pose proof (lookup_lt_Some _ _ _ Hslot) as Hi.
    assert (length ld ≠ length images) as Hnot by lia.
    exists (ld ++ [slot]), fl. split; [|by case_decide].
    constructor; cbn; rewrite ?length_app; cbn; try done.
    + etrans; [|exact Hperm].
      pose proof (delete_Permutation _ _ _ Hslot) as HL.
      set (D := delete i (loading ex)) in *. rewrite HL.
      rewrite <-(assoc_L (++)). apply Permutation_app_head.
      cbn. apply Permutation_middle.
    + rewrite Hdrawn, fmap_app. cbn. unfold draw_of. by rewrite Hpos.
    + lia.
    + unfold output in *. cbn. rewrite !rasters_app, Hout.
      rewrite decide_False by done. cbn.
      rewrite Hloaded, Htotal, Nat.add_1_r.
      destruct (decide (S (length ld) = length images));
        [rewrite bool_decide_eq_true_2 by done
        |rewrite bool_decide_eq_false_2 by done]; done.
    + rewrite Hloaded, Htotal. case_bool_decide; [lia|].
      intros He. specialize (Henc He). lia.
    + rewrite Hloaded, Htotal.
      intros fn [Hin|[Hin|Hin]%elem_of_cons]%elem_of_app.
      * specialize (Hdl fn Hin). lia.
      * done.
      * case_bool_decide; [lia|]. by apply elem_of_nil in Hin.
  - (* the image at position [i] failed to decode *)
    destruct (loading ex !! i) as [slot|] eqn:Hslot; [|done].
    cbn in Hfire. injection Hfire as <-.
    exists ld, (fl ++ [slot]).
    split; [|rewrite length_app; by case_decide].
    constructor; cbn; try done.
    etrans; [|exact Hperm].
    pose proof (delete_Permutation _ _ _ Hslot) as HL.
    set (D := delete i (loading ex)) in *. rewrite HL.
    by rewrite <-(assoc_L (++)).
  - (* the encoder has called back *)
    destruct (encoding ex) eqn:He; [|done]. injection Hfire as <-.
    exists ld, fl. split; [|by case_decide].
    constructor; cbn; try done.
    + unfold output in *. cbn. rewrite rasters_app, Hout.
      destruct blob; cbn; by rewrite app_nil_r.
    + intros fn _. by apply Henc.
Qed.

Lemma run_invariant evs : ∀ ld fl ex ex',
  export_invariant images fmt cfg ld fl ex →
  run evs ex = Some ex' →
  ∃ ld' fl',
    export_invariant images fmt cfg ld' fl' ex'
    ∧ length fl' = length fl + length (filter is_failure evs).
Proof.
  induction evs as [|ev evs IH]; intros ld fl ex ex' Hinv Hrun.
  - injection Hrun as <-. exists ld, fl. split; [done|]. cbn. lia.
  - cbn in Hrun. destruct (fire ev ex) as [ex1|] eqn:Hfire; [|done].
    cbn in Hrun.
    destruct (fire_invariant _ _ _ _ _ Hinv Hfire) as (ld1 & fl1 & Hinv1 & Hfl1).
    destruct (IH _ _ _ _ Hinv1 Hrun) as (ld2 & fl2 & Hinv2 & Hfl2).
    exists ld2, fl2. split; [done|]. rewrite Hfl2, Hfl1.
    destruct (decide (is_failure ev)).
    + rewrite filter_cons_True by done. cbn. lia.
    + rewrite filter_cons_False by done. lia.
Qed.
End invariant.

(** When every image decodes, the export runs to the end. *)
Lemma run_all_loads cfg : ∀ n ex,
  (∀ f, is_Some (prop f (positions cfg))) →
  format ex = cfg → length (loading ex) = n →
  ∃ final, run (replicate n (Loaded 0)) ex = Some final ∧ loading final = [].
Proof.
  induction n as [|n IH]; intros ex Htotal Hformat Hlen.
  - exists ex. split; [done|]. by apply nil_length_inv.
  - destruct (loading ex) as [|slot rest] eqn:Hl; [done|].
    destruct (Htotal (face slot)) as [pos Hpos].
    cbn. rewrite Hl. cbn. unfold onload. cbn. rewrite Hformat, Hpos. cbn.
    apply IH; cbn; [done|done|]. rewrite Hl. cbn. cbn in Hlen. lia.
Qed.

Lemma covers_draw_of cfg slot pos px py :
  prop (face slot) (positions cfg) = Some pos →
  covers (draw_of cfg slot) px py = true ↔ cell px py = pos.
Proof.
  intros Hpos. unfold covers, draw_of, cell. rewrite Hpos. cbn.
  rewrite andb_true_iff, !bool_decide_eq_true.
  destruct pos as [x y]. cbn. unfold FACE_SIZE. split.
  - intros [Hx Hy]. f_equal; Z.div_mod_to_equations; lia.
  - intros [= <- <-]. Z.div_mod_to_equations. lia.
Qed.

Section painted.
Context (cfg : FormatConfig) (Hok : cell_mapping_ok cfg) (px py : Z).

Lemma painted_none (l : list FaceSlot) :
  (∀ t, t ∈ l → prop (face t) (positions cfg) ≠ Some (cell px py)) →
  filter (λ d, covers d px py = true) (draw_of cfg <$> l) = [].
Proof.
  induction l as [|t l IH]; intros Hl; [done|].
  rewrite fmap_cons, filter_cons_False.
  - apply IH. intros t' Ht'. apply Hl. by right.
  - destruct (proj1 Hok (face t)) as (pos & Hpos & _).
    rewrite (covers_draw_of _ _ _ _ _ Hpos). intros <-.
    by apply (Hl t); [left|].
Qed.

Lemma painted_unique (l : list FaceSlot) slot :
  NoDup (face <$> l) → slot ∈ l →
  prop (face slot) (positions cfg) = Some (cell px py) →
  filter (λ d, covers d px py = true) (draw_of cfg <$> l)
  = [draw_of cfg slot].
Proof.
  induction l as [|t l IH]; intros Hnd Hin Hslot.
  { by apply elem_of_nil in Hin. }
  rewrite fmap_cons in Hnd. apply NoDup_cons in Hnd as [Hnotin Hnd].
  rewrite fmap_cons. destruct (decide (face t = face slot)) as [Heq|Hne].
  - assert (t = slot) as ->.
    { apply elem_of_cons in Hin as [->|Hin]; [done|].
      exfalso. apply Hnotin. rewrite Heq. by apply list_elem_of_fmap_2. }
    rewrite filter_cons_True by (by apply (covers_draw_of _ _ _ _ _ Hslot)).
    f_equal. apply painted_none. intros t' Ht' Hpos.
    apply Hnotin. replace (face slot) with (face t').
    + by apply list_elem_of_fmap_2.
    + apply (proj1 (proj2 Hok)). congruence.
  - rewrite filter_cons_False.
    + apply IH; [done| |done].
      apply elem_of_cons in Hin as [->|Hin]; [done|done].
    + destruct (proj1 Hok (face t)) as (pos & Hpos & _).
      rewrite (covers_draw_of _ _ _ _ _ Hpos). intros <-.
      apply Hne. apply (proj1 (proj2 Hok)). congruence.
Qed.
End painted.

(** A canvas with a single draw, into the cell at column [x], row [y]. *)
Lemma painted_single_draw w h img (x y px py : Z) :
  painted {| cwidth := w; cheight := h;
             drawn := [ {| src := img; dx := x * 512; dy := y * 512;
                           dw := 512; dh := 512 |}%Z ] |} px py
  = if decide (cell px py = (x, y)) then [img] else [].
Proof.
  unfold painted, cell, covers, FACE_SIZE. cbn.
  destruct (decide (((px / 512)%Z, (py / 512)%Z) = (x, y))) as [Heq|Hne];
    destruct (decide (_ && _ = true)) as [Hc|Hc]; try done; exfalso.
  - injection Heq as Hx Hy. apply Hc.
    rewrite andb_true_iff, !bool_decide_eq_true.
    Z.div_mod_to_equations. lia.
  - apply andb_true_iff in Hc as [Hx Hy].
    apply bool_decide_eq_true in Hx, Hy. apply Hne.
    f_equal; Z.div_mod_to_equations; lia.
Qed.

Lemma well_formed_images_NoDup slots :
  well_formed slots →
  NoDup (face <$> filter (λ s, filled s = true) slots).
Proof.
  intros Hwf. apply (sublist_NoDup _ (face <$> slots)).
  - unfold well_formed in Hwf. rewrite Hwf.
    apply (bool_decide_unpack _). vm_compute. exact I.
  - apply fmap_sublist, sublist_filter.
Qed.

Lemma filter_failure_loaded evs :
  Forall is_loaded evs → filter is_failure evs = [].
Proof.
  induction 1 as [|ev evs Hev _ IH]; [done|].
  rewrite filter_cons_False; [done|]. destruct ev; simpl in *; tauto.
Qed.

Lemma exportCubemap_empty slots fmt cfg :
  prop (format_key fmt) EXPORT_FORMATS = Some cfg →
  filter (λ s, filled s = true) slots = [] →
  ∃ ex, exportCubemap slots fmt true = Some ex
        ∧ effects ex =
            [ CreateCanvas (FACE_SIZE * width cfg) (FACE_SIZE * height cfg);
              ClearRect 0 0 (FACE_SIZE * width cfg) (FACE_SIZE * height cfg);
              Alert "Please add at least one image before exporting." ]
        ∧ loading ex = [] ∧ encoding ex = false
        ∧ imagesLoaded ex = 0 ∧ drawn (canvas ex) = [].
Proof.
  intros Hcfg Hnil. unfold exportCubemap. rewrite Hcfg. cbn.
  rewrite Hnil. cbn. eexists. by split.
Qed.

Lemma exportCubemap_no_context slots fmt cfg :
  prop (format_key fmt) EXPORT_FORMATS = Some cfg →
  ∃ ex, exportCubemap slots fmt false = Some ex
        ∧ effects ex =
            [CreateCanvas (FACE_SIZE * width cfg) (FACE_SIZE * height cfg)]
        ∧ loading ex = [] ∧ encoding ex = false
        ∧ imagesLoaded ex = 0 ∧ drawn (canvas ex) = [].
Proof.
  intros Hcfg. unfold exportCubemap. rewrite Hcfg. cbn. eexists. by split.
Qed.

(** ** The compositor: properties *)

(** C2, as the code has it.  With every slot empty the export creates the
    canvas and clears it, and only then makes the check: it alerts "Please
    add at least one image before exporting." and does nothing further, no
    image is loaded, nothing is drawn, no raster is encoded and nothing is
    downloaded, now or later.  Without a 2D context it stops right after
    creating the canvas, without the alert. *)
Theorem export_with_no_image (slots : list FaceSlot) (fmt : ExportFormat) :
  Forall (λ s, filled s = false) slots →
  ∃ cfg ex ex',
    prop (format_key fmt) EXPORT_FORMATS = Some cfg
    ∧ exportCubemap slots fmt true = Some ex
    ∧ effects ex =
        [ CreateCanvas (FACE_SIZE * width cfg) (FACE_SIZE * height cfg);
          ClearRect 0 0 (FACE_SIZE * width cfg) (FACE_SIZE * height cfg);
          Alert "Please add at least one image before exporting." ]
    ∧ loading ex = [] ∧ output ex = [] ∧ ¬ completion_signaled ex
    ∧ (∀ evs ex1, run evs ex = Some ex1 → evs = [] ∧ ex1 = ex)
    ∧ exportCubemap slots fmt false = Some ex'
    ∧ effects ex' =
        [CreateCanvas (FACE_SIZE * width cfg) (FACE_SIZE * height cfg)]
    ∧ (∀ evs ex1, run evs ex' = Some ex1 → evs = [] ∧ ex1 = ex').
Proof.
  intros Hempty. destruct (registry_lookup fmt) as (cfg & Hcfg & _).
  destruct (exportCubemap_empty slots fmt cfg Hcfg (filter_filled_nil _ Hempty))
    as (ex & Hex & Heff & Hl & He & _).
  destruct (exportCubemap_no_context slots fmt cfg Hcfg)
    as (ex' & Hex' & Heff' & Hl' & He' & _).
  exists cfg, ex, ex'.
  split; [done|]. split; [done|]. split; [done|]. split; [done|].
  split; [unfold output; by rewrite Heff|].
  split.
  { unfold completion_signaled. rewrite Heff.
    intros [(c & mime & H)|(fn & H)];
      repeat (apply elem_of_cons in H as [H|H]; [done|]);
      by apply elem_of_nil in H. }
  split; [intros evs ex1; by apply run_idle|].
  split; [done|]. split; [done|].
  intros evs ex1; by apply run_idle.
Qed.

(** [clearAll()] followed by an export under [cross]: no raster. *)
Lemma export_with_no_image_witness :
  ∃ ex,
    exportCubemap
      (clearAll (slots_with (Some "T") None (Some "F") None None None))
      Cross true = Some ex
    ∧ output ex = [].
Proof.
  destruct (export_with_no_image
              (clearAll (slots_with (Some "T") None (Some "F") None None None))
              Cross)
    as (cfg & ex & ex' & _ & H1 & _ & _ & H2 & _).
  - repeat constructor.
  - by exists ex.
Defined.

(** C2, as stated, fails: with all six slots empty the canvas is allocated
    (and cleared) before the check that raises the alert. *)
Lemma canvas_allocated_before_check :
  ∃ ex, exportCubemap INITIAL_SLOTS Cross true = Some ex
        ∧ effects ex =
            [CreateCanvas 2048 1536; ClearRect 0 0 2048 1536]
            ++ [Alert "Please add at least one image before exporting."].
Proof. eexists. split; reflexivity. Qed.

(** C6.  For well-formed slots of which at least one
    holds an image, and any layout, the export starts, and when every
    image decodes (which can always happen, in any order) it hands the
    encoder exactly one raster, of [width * 512] by [height * 512] pixels.
    Each filled slot's image is drawn into the 512-square rectangle at
    ([x * 512], [y * 512]) where ([x], [y]) is the layout's cell of the
    slot's face, and it alone covers the pixels of that cell; the pixels
    of a cell that is no filled slot's cell stay transparent.  With only
    Front filled under [cross] the raster is 2048 by 1536 and is painted
    in the cell at column 1, row 1 and nowhere else. *)
Theorem composite_raster (slots : list FaceSlot) (fmt : ExportFormat) :
  well_formed slots →
  Exists (λ s, filled s = true) slots →
  ∃ cfg ex0,
    prop (format_key fmt) EXPORT_FORMATS = Some cfg
    ∧ exportCubemap slots fmt true = Some ex0
    ∧ (∃ evs final,
         Forall is_loaded evs ∧ run evs ex0 = Some final ∧ loading final = [])
    ∧ (∀ evs final,
         Forall is_loaded evs → run evs ex0 = Some final →
         loading final = [] →
         ∃ raster,
           output final = [raster]
           ∧ cwidth raster = (width cfg * FACE_SIZE)%Z
           ∧ cheight raster = (height cfg * FACE_SIZE)%Z
           ∧ length (drawn raster)
             = length (filter (λ s, filled s = true) slots)
           ∧ (∀ slot img,
                slot ∈ slots → filled slot = true → image slot = Some img →
                ∃ x y,
                  prop (face slot) (positions cfg) = Some (x, y)
                  ∧ {| src := img;
                       dx := x * FACE_SIZE; dy := y * FACE_SIZE;
                       dw := FACE_SIZE; dh := FACE_SIZE |}%Z ∈ drawn raster
                  ∧ ∀ px py, cell px py = (x, y) →
                             painted raster px py = [img])
           ∧ (∀ px py,
                (∀ slot, slot ∈ slots → filled slot = true →
                         prop (face slot) (positions cfg)
                         ≠ Some (cell px py)) →
                painted raster px py = []))
    ∧ (∀ img final,
         nonempty img = true →
         (ex ← exportCubemap (slots_with None None (Some img) None None None)
                 Cross true;
          run [Loaded 0] ex) = Some final →
         ∃ raster,
           output final = [raster]
           ∧ cwidth raster = (4 * FACE_SIZE)%Z
           ∧ cheight raster = (3 * FACE_SIZE)%Z
           ∧ ∀ px py, painted raster px py
                      = if decide (cell px py = (1, 1)%Z) then [img] else []).
Proof.
  intros Hwf Hex.
  destruct (registry_lookup fmt) as (cfg & Hcfg & Hok).
  set (images := filter (λ s, filled s = true) slots).
  assert (images ≠ []) as Hsome.
  { apply Exists_exists in Hex as (s & Hs & Hf).
    assert (s ∈ images) as Hin by (by apply list_elem_of_filter).
    intros Hnil. rewrite Hnil in Hin. by apply elem_of_nil in Hin. }
  destruct (exportCubemap_invariant slots fmt cfg Hcfg Hsome)
    as (ex0 & Hex0 & Hload0 & Hinv0).
  exists cfg, ex0. split; [done|]. split; [done|]. split; [|split].
  - (* a complete run exists *)
    destruct (run_all_loads cfg (length images) ex0) as (final & Hrun & Hl).
    + intros f. destruct (proj1 Hok f) as (pos & Hpos & _). by exists pos.
    + apply (inv_format _ _ _ _ _ _ Hinv0).
    + by rewrite Hload0.
    + exists (replicate (length images) (Loaded 0)), final.
      split; [by apply Forall_replicate|done].
  - (* every complete run ends with the raster *)
    intros evs final Hevs Hrun Hl.
    destruct (run_invariant slots fmt cfg evs _ _ _ _ Hinv0 Hrun)
      as (ld & fl & Hinv & Hfl).
    rewrite (filter_failure_loaded _ Hevs) in Hfl. cbn in Hfl.
    apply nil_length_inv in Hfl as ->.
    destruct Hinv as [Hperm Hdrawn Hloaded Htotal Hformat Hkey Hw Hh Hout _ _].
    rewrite Hl, !app_nil_r in Hperm. fold images in Hperm, Hout.
    rewrite decide_True in Hout by (by rewrite Hperm).
    exists (canvas final). split; [done|].
    split; [rewrite Hw; apply Z.mul_comm|].
    split; [rewrite Hh; apply Z.mul_comm|].
    assert (NoDup (face <$> ld)) as Hnd.
    { rewrite Hperm. by apply well_formed_images_NoDup. }
    split; [|split].
    + by rewrite Hdrawn, length_fmap, Hperm.
    + intros slot img Hin Hf Himg.
      assert (slot ∈ ld) as Hld.
      { rewrite Hperm. by apply list_elem_of_filter. }
      destruct (proj1 Hok (face slot)) as ([x y] & Hpos & _).
      assert (draw_of cfg slot
              = {| src := img; dx := x * FACE_SIZE; dy := y * FACE_SIZE;
                   dw := FACE_SIZE; dh := FACE_SIZE |}%Z) as Hdraw.
      { unfold draw_of. by rewrite Hpos, Himg. }
      exists x, y. split; [done|]. split.
      * rewrite Hdrawn, <-Hdraw. by apply list_elem_of_fmap_2.
      * intros px py Hcell. unfold painted. rewrite Hdrawn.
        rewrite (painted_unique cfg Hok px py ld slot Hnd Hld)
          by (by rewrite Hcell).
        by rewrite Hdraw.
    + intros px py Hnone. unfold painted. rewrite Hdrawn.
      rewrite painted_none; [done|done|].
      intros t Ht. rewrite Hperm in Ht.
      apply list_elem_of_filter in Ht as [Hf Hin]. by apply Hnone.
  - (* only Front, layout cross *)
    intros img final Himg Hrun. destruct img as [|c img]; [done|].
    cbn in Hrun. injection Hrun as <-. eexists. split; [reflexivity|].
    split; [reflexivity|]. split; [reflexivity|].
    intros px py. apply painted_single_draw.
Qed.

(** Only Front filled, layout [cross]. *)
Lemma composite_raster_witness :
  ∃ cfg ex0,
    prop (format_key Cross) EXPORT_FORMATS = Some cfg
    ∧ exportCubemap (slots_with None None (Some "F") None None None)
        Cross true = Some ex0.
Proof.
  destruct (composite_raster
              (slots_with None None (Some "F") None None None) Cross)
    as (cfg & ex0 & H1 & H2 & _).
  - reflexivity.
  - do 2 apply Exists_cons_tl. by apply Exists_cons_hd.
  - by exists cfg, ex0.
Defined.

(** For the all-empty slot collection, the error case of the export, no
    raster is produced at all, whatever happens afterwards. *)
Lemma no_raster_from_empty_slots :
  well_formed INITIAL_SLOTS
  ∧ ∃ ex, exportCubemap INITIAL_SLOTS Cross true = Some ex
          ∧ output ex = []
          ∧ ∀ evs ex', run evs ex = Some ex' → output ex' = [].
Proof.
  split; [reflexivity|]. eexists. split; [reflexivity|]. split; [reflexivity|].
  intros evs ex' Hrun. by apply run_idle in Hrun as [_ ->].
Qed.

(** C8. Whatever the event loop delivers to an export, in whatever order
    (images that load, images that fail to decode, the encoder's callback),
    the number of images counted as loaded is the number of images drawn,
    and completion (handing the raster to the encoder, or the download) is
    signalled only in a state where that number equals the number of slots
    that were filled when the export started, no image is still loading
    and none has failed; while an image is still loading, completion is
    not signalled. *)
Theorem completion_only_after_all_loaded
    (slots : list FaceSlot) (fmt : ExportFormat) (ctx : bool)
    (ex0 ex : Export) (evs : list Event) :
  exportCubemap slots fmt ctx = Some ex0 →
  run evs ex0 = Some ex →
  imagesLoaded ex = length (drawn (canvas ex))
  ∧ imagesLoaded ex ≤ length (filter (λ s, filled s = true) slots)
  ∧ (completion_signaled ex →
       imagesLoaded ex = length (filter (λ s, filled s = true) slots)
       ∧ loading ex = []
       ∧ filter is_failure evs = [])
  ∧ (loading ex ≠ [] → ¬ completion_signaled ex).
Proof.
  intros Hex0 Hrun.
  destruct (registry_lookup fmt) as (cfg & Hcfg & _).
  set (images := filter (λ s, filled s = true) slots).
  assert (loading ex0 = [] → encoding ex0 = false →
          imagesLoaded ex0 = 0 → drawn (canvas ex0) = [] →
          (∀ c mime, ToBlob c mime ∉ effects ex0) →
          (∀ fn, Download fn ∉ effects ex0) →
          imagesLoaded ex = length (drawn (canvas ex))
          ∧ imagesLoaded ex ≤ length images
          ∧ (completion_signaled ex →
               imagesLoaded ex = length images ∧ loading ex = []
               ∧ filter is_failure evs = [])
          ∧ (loading ex ≠ [] → ¬ completion_signaled ex)) as Hidle.
  { intros Hl He Hn Hd Hb Hdl.
    destruct (run_idle _ _ _ Hl He Hrun) as [-> ->].
    assert (¬ completion_signaled ex0) as Hns.
    { intros [(c & mime & H)|(fn & H)]; [by eapply Hb|by eapply Hdl]. }
    rewrite Hn, Hd. repeat split; try done; cbn; lia. }
  destruct ctx.
  - destruct (decide (images = [])) as [Hnil|Hsome].
    + destruct (exportCubemap_empty slots fmt cfg Hcfg Hnil)
        as (ex1 & Hex1 & Heff & Hl & He & Hn & Hd).
      assert (ex1 = ex0) as -> by congruence.
      apply Hidle; try done; rewrite Heff; intros; intros H;
        repeat (apply elem_of_cons in H as [H|H]; [done|]);
        by apply elem_of_nil in H.
    + destruct (exportCubemap_invariant slots fmt cfg Hcfg Hsome)
        as (ex1 & Hex1 & _ & Hinv0).
      assert (ex1 = ex0) as -> by congruence.
      destruct (run_invariant slots fmt cfg evs _ _ _ _ Hinv0 Hrun)
        as (ld & fl & Hinv & Hfl).
      destruct Hinv as [Hperm Hdrawn Hloaded Htotal _ _ _ _ Hout Henc Hdl].
      fold images in Hperm, Hout, Hdl, Henc.
      pose proof (Permutation_length Hperm) as Hlen.
      rewrite !length_app in Hlen. cbn in Hfl.
      assert (completion_signaled ex → length ld = length images) as Hsig.
      { intros [(c & mime & H)|(fn & H)]; [|by eapply Hdl].
        assert (c ∈ output ex) as Hc by (apply elem_of_rasters; eauto).
        rewrite Hout in Hc. case_decide; [done|].
        by apply elem_of_nil in Hc. }
      split; [by rewrite Hdrawn, length_fmap|].
      split; [lia|]. split.
      * intros Hs. specialize (Hsig Hs). split; [lia|].
        split; apply nil_length_inv; lia.
      * intros Hl Hs. specialize (Hsig Hs).
        destruct (loading ex); [done|]. cbn in Hlen. lia.
  - destruct (exportCubemap_no_context slots fmt cfg Hcfg)
      as (ex1 & Hex1 & Heff & Hl & He & Hn & Hd).
    assert (ex1 = ex0) as -> by congruence.
    apply Hidle; try done; rewrite Heff; intros; intros H;
      repeat (apply elem_of_cons in H as [H|H]; [done|]);
      by apply elem_of_nil in H.
Qed.

(** Left and Front filled; Front loads first, then Left: completion is
    signalled, with two images loaded. *)
Lemma completion_only_after_all_loaded_witness :
  ∃ ex0 ex,
    exportCubemap (slots_with None (Some "L") (Some "F") None None None)
      Cross true = Some ex0
    ∧ run [Loaded 1; Loaded 0] ex0 = Some ex
    ∧ completion_signaled ex
    ∧ imagesLoaded ex = 2.
Proof.
  pose proof (completion_only_after_all_loaded
                (slots_with None (Some "L") (Some "F") None None None)
                Cross true _ _ [Loaded 1; Loaded 0] eq_refl eq_refl)
    as (_ & _ & H & _).
  match type of H with
  | completion_signaled ?e → _ => assert (completion_signaled e) as Hs
  end.
  { left. eexists _, _. cbn. do 6 apply list_elem_of_further.
    apply list_elem_of_here. }
  eexists _, _. split; [reflexivity|]. split; [reflexivity|].
  split; [exact Hs|exact (proj1 (H Hs))].
Defined.

(** ** Further properties of the slot engine *)

Lemma clearSlot_faces index prev :
  face <$> clearSlot index prev = face <$> prev.
Proof. apply imap_keeps_faces. intros i x. by case_decide. Qed.

Lemma swapImages_Some i j s s' :
  swapImages i j s = Some s' →
  ∃ d t, s !! i = Some d ∧ s !! j = Some t.
Proof.
  unfold swapImages. intros Hswap.
  destruct (s !! i) as [d|] eqn:Hd; [|done]. cbn in Hswap.
  destruct (s !! j) as [t|] eqn:Ht; [|done]. eauto.
Qed.

Lemma swapImages_faces i j s s' :
  swapImages i j s = Some s' → face <$> s' = face <$> s.
Proof.
  intros Hswap.
  destruct (swapImages_Some _ _ _ _ Hswap) as (d & t & Hd & Ht).
  destruct (swapImages_lookup s i j d t Hd Ht) as (s2 & Hs2 & _ & Hlook).
  assert (s2 = s') as -> by congruence.
  apply list_eq. intros k. rewrite !list_lookup_fmap, Hlook.
  repeat case_decide; subst; by rewrite ?Hd, ?Ht.
Qed.

Lemma swapImages_out_of_range i j s :
  length s ≤ i ∨ length s ≤ j → swapImages i j s = None.
Proof.
  intros H. destruct (swapImages i j s) as [s'|] eqn:Hswap; [|done].
  destruct (swapImages_Some _ _ _ _ Hswap) as (d & t & Hd & Ht).
  apply lookup_lt_Some in Hd, Ht. lia.
Qed.

Lemma well_formed_length s : well_formed s → length s = 6.
Proof. intros H. by rewrite <-(length_fmap face), H. Qed.

(** X1. The slot collection keeps its shape: from well-formed slots (six
    slots, the faces in canonical order), whatever reads complete and
    whatever exchanges and clears happen, in any order, the updates never
    throw as long as exchanges name existing slots, and the slots are
    well-formed again: no slot is added, removed, reordered or given
    another face. *)
Theorem slots_stay_well_formed (l : list Action) (s : list FaceSlot) :
  well_formed s → Forall in_range l →
  ∃ s', acts l s = Some s' ∧ well_formed s' ∧ length s' = 6.
Proof.
  intros Hwf Hl. revert s Hwf.
  induction Hl as [|a l Ha _ IH]; intros s Hwf.
  { exists s. split; [done|]. split; [done|]. by apply well_formed_length. }
  assert (∃ s1, act a s = Some s1 ∧ well_formed s1) as (s1 & Hact & Hwf1).
  { pose proof (well_formed_length s Hwf) as Hlen.
    unfold well_formed in *. destruct a as [i img|fc img|i img|d t|i|]; cbn.
    - eexists. split; [done|]. by rewrite assignAt_faces.
    - eexists. split; [done|]. by rewrite placeDetected_faces.
    - eexists. split; [done|]. by rewrite placeSequential_faces.
    - destruct Ha as [Hd Ht].
      destruct (lookup_lt_is_Some_2 s d) as [x Hx]; [lia|].
      destruct (lookup_lt_is_Some_2 s t) as [y Hy]; [lia|].
      destruct (swapImages_lookup s d t x y Hx Hy) as (s1 & Hs1 & _).
      exists s1. split; [done|]. by rewrite (swapImages_faces _ _ _ _ Hs1).
    - eexists. split; [done|]. by rewrite clearSlot_faces.
    - eexists. split; [done|]. done. }
  destruct (IH s1 Hwf1) as (s' & Hs' & Hwf' & Hlen').
  exists s'. split; [|done]. cbn. by rewrite Hact.
Qed.

(** A file assigned, two slots exchanged, a bulk upload completed, one slot
    cleared. *)
Lemma slots_stay_well_formed_witness :
  ∃ s', acts [FileLoaded 2 "F"; Exchange 2 5; SequentialLoaded 0 "A";
              DetectedLoaded (Some FRight) "R"; ClearSlot 5] INITIAL_SLOTS
        = Some s'
        ∧ well_formed s' ∧ length s' = 6.
Proof.
  apply (slots_stay_well_formed _ INITIAL_SLOTS); [reflexivity|].
  repeat constructor.
Defined.

(** X2. A single-file assignment overwrites its slot whatever it holds, so
    of two assignments to the same slot the one whose read completes last
    wins; assignments to different slots commute; an index past the last
    slot changes nothing; and no file means no read. *)
Theorem assign_last_completion_wins (i j : nat) (a b : string)
    (s : list FaceSlot) :
  assignAt i b (assignAt i a s) = assignAt i b s
  ∧ (i ≠ j → assignAt i a (assignAt j b s) = assignAt j b (assignAt i a s))
  ∧ (length s ≤ i → assignAt i a s = s)
  ∧ (∀ slot, s !! i = Some slot →
       assignAt i a s !! i = Some {| face := face slot; image := Some a |})
  ∧ handleFileChange i None = [].
Proof.
  split; [|split; [|split; [|split]]]; try done.
  - apply list_eq. intros k. unfold assignAt. rewrite !list_lookup_imap.
    destruct (s !! k); cbn; [|done]. by case_decide.
  - intros Hne. apply list_eq. intros k. unfold assignAt.
    rewrite !list_lookup_imap. destruct (s !! k); cbn; [|done].
    repeat case_decide; subst; done.
  - intros Hlen. apply imap_update_none. by apply lookup_ge_None.
  - intros slot Hs. unfold assignAt. rewrite list_lookup_imap, Hs. cbn.
    by rewrite decide_True.
Qed.

Lemma clearSlot_insert i (s : list FaceSlot) slot :
  s !! i = Some slot → clearSlot i s = <[i := with_image slot None]> s.
Proof.
  intros Hs. by apply (imap_update_at (λ slot, with_image slot None)).
Qed.

(** X3. Clearing a slot empties that slot and leaves the others alone; an
    index past the last slot changes nothing; clearing undoes an
    assignment to the same slot and clearing twice is clearing once.
    Clear All gives the initial slots whatever the slots were, which is
    what clearing the six slots one by one gives on well-formed slots;
    after it both buttons are disabled. *)
Theorem clear_empties (i : nat) (img : string) (s : list FaceSlot) :
  (∀ slot, s !! i = Some slot → clearSlot i s = <[i := with_image slot None]> s)
  ∧ (length s ≤ i → clearSlot i s = s)
  ∧ clearSlot i (assignAt i img s) = clearSlot i s
  ∧ clearSlot i (clearSlot i s) = clearSlot i s
  ∧ clearAll s = INITIAL_SLOTS
  ∧ (well_formed s →
       foldr clearSlot s (seq 0 6) = clearAll s)
  ∧ filledCount (clearAll s) = 0
  ∧ buttons_disabled (clearAll s) = true.
Proof.
  split; [apply clearSlot_insert|].
  split; [intros Hlen; apply imap_update_none; by apply lookup_ge_None|].
  split.
  { apply list_eq. intros k. unfold clearSlot, assignAt.
    rewrite !list_lookup_imap. destruct (s !! k); cbn; [|done].
    by case_decide. }
  split.
  { apply list_eq. intros k. unfold clearSlot.
    rewrite !list_lookup_imap. destruct (s !! k); cbn; [|done].
    by case_decide. }
  split; [done|]. split; [|done].
  intros Hwf. unfold well_formed in Hwf.
  do 7 (destruct s as [|[? ?] s]; try discriminate Hwf).
  cbn in Hwf. by injection Hwf as -> -> -> -> -> ->.
Qed.

Lemma insert_moves_head {A} (l : list A) j (b x : A) :
  l !! j = Some b → b :: <[j := x]> l ≡ₚ x :: l.
Proof.
  revert j. induction l as [|y l IH]; intros [|j] Hj; try done; cbn in *.
  - injection Hj as ->. apply perm_swap.
  - rewrite perm_swap, (IH j Hj). apply perm_swap.
Qed.

(** Exchanging two elements of a list permutes it. *)
Lemma insert_swap_Permutation {A} (l : list A) i j (a b : A) :
  l !! i = Some a → l !! j = Some b → <[j := a]> (<[i := b]> l) ≡ₚ l.
Proof.
  revert i j. induction l as [|y l IH]; intros [|i] [|j] Hi Hj;
    try done; cbn in *.
  - by injection Hi as ->.
  - injection Hi as ->. by apply insert_moves_head.
  - injection Hj as ->. by apply insert_moves_head.
  - by rewrite (IH i j).
Qed.

Lemma filledCount_images s :
  filledCount s = length (filter (λ im, truthy im = true) (image <$> s)).
Proof.
  unfold filledCount. induction s as [|x s IH]; [done|].
  rewrite fmap_cons, !filter_cons. unfold filled at 1.
  destruct (decide (truthy (image x) = true)); cbn; by rewrite IH.
Qed.

(** X4. The exchange succeeds exactly for two existing slots (otherwise
    reading the image of a missing slot throws).  When it succeeds it
    only moves images around: the images of the slots after it are a
    permutation of those before, so no image is lost or duplicated and
    the number of filled slots is the same; and dragging [i] onto [j]
    gives the same slots as dragging [j] onto [i]. *)
Theorem exchange_keeps_images (i j : nat) (s : list FaceSlot) :
  (is_Some (swapImages i j s) ↔ i < length s ∧ j < length s)
  ∧ ∀ s', swapImages i j s = Some s' →
      image <$> s' ≡ₚ image <$> s
      ∧ filledCount s' = filledCount s
      ∧ length s' = length s
      ∧ swapImages j i s = Some s'.
Proof.
  split.
  { split.
    - intros [s' Hs']. destruct (decide (i < length s ∧ j < length s)) as [|Hn];
        [done|]. rewrite swapImages_out_of_range in Hs' by lia. done.
    - intros [Hi Hj].
      destruct (lookup_lt_is_Some_2 s i Hi) as [d Hd].
      destruct (lookup_lt_is_Some_2 s j Hj) as [t Ht].
      destruct (swapImages_lookup s i j d t Hd Ht) as (s' & -> & _). eauto. }
  intros s' Hswap.
  destruct (swapImages_Some _ _ _ _ Hswap) as (d & t & Hd & Ht).
  destruct (swapImages_lookup s i j d t Hd Ht) as (s1 & Hs1 & Hlen & Hlook).
  assert (s1 = s') as -> by congruence.
  pose proof (lookup_lt_Some _ _ _ Hd) as Hi.
  pose proof (lookup_lt_Some _ _ _ Ht) as Hj.
  assert (image <$> s' ≡ₚ image <$> s) as Hperm.
  { assert (image <$> s' = <[j := image d]> (<[i := image t]> (image <$> s)))
      as ->.
    { apply list_eq. intros k.
      rewrite !list_lookup_insert, !length_insert, !length_fmap.
      rewrite !list_lookup_fmap, Hlook.
      repeat case_decide; try done; try lia; destruct_and?; subst; try done.
      all: exfalso; naive_solver. }
    apply insert_swap_Permutation; by rewrite list_lookup_fmap, ?Hd, ?Ht. }
  split; [done|]. split; [by rewrite !filledCount_images, Hperm|].
  split; [done|].
  destruct (swapImages_lookup s j i t d Ht Hd) as (s2 & Hs2 & _ & Hlook2).
  rewrite Hs2. f_equal. apply list_eq. intros k. rewrite Hlook, Hlook2.
  repeat case_decide; subst; try done.
  by assert (t = d) as -> by congruence.
Qed.

Lemma Permutation_fmap_inv {A B} (f : A → B) (l : list A) (k : list B) :
  k ≡ₚ f <$> l → ∃ l', k = f <$> l' ∧ l' ≡ₚ l.
Proof.
  intros H. apply Permutation_map_inv in H as (l' & -> & Hl').
  exists l'. split; [done|]. by symmetry.
Qed.

Lemma prop_app_None {K V} `{EqDecision K} (k : K) (l1 l2 : list (K * V)) :
  prop k l1 = None → prop k (l1 ++ l2) = prop k l2.
Proof.
  induction l1 as [|[k' v] l1 IH]; cbn; [done|]. by case_decide.
Qed.

Lemma prop_None {K V} `{EqDecision K} (k : K) (l : list (K * V)) :
  prop k l = None ↔ k ∉ l.*1.
Proof.
  induction l as [|[k' v] l IH]; cbn.
  - split; [|done]. intros _ H'. by apply elem_of_nil in H'.
  - case_decide as Hk.
    + split; [done|]. intros H'. exfalso. apply H'. subst. by left.
    + rewrite IH. split.
      * intros Hn [->|Hin]%elem_of_cons; done.
      * intros Hn Hin. apply Hn. by right.
Qed.

(** With every key at most once, lookup is membership. *)
Lemma prop_Some_NoDup {K V} `{EqDecision K} (k : K) (l : list (K * V)) v :
  NoDup l.*1 → prop k l = Some v ↔ (k, v) ∈ l.
Proof.
  induction l as [|[k' v'] l IH]; cbn; intros Hnd.
  - split; [done|]. intros H'. by apply elem_of_nil in H'.
  - apply NoDup_cons in Hnd as [Hnotin Hnd]. case_decide as Hk.
    + subst. split.
      * intros [= ->]. by left.
      * intros [[= ->]|Hin]%elem_of_cons; [done|].
        exfalso. apply Hnotin. by apply (list_elem_of_fmap_2 fst _ (k', v)).
    + rewrite (IH Hnd). split.
      * intros Hin. by right.
      * intros [[= -> ->]|Hin]%elem_of_cons; done.
Qed.

Lemma prop_Permutation {K V} `{EqDecision K} (k : K) (l1 l2 : list (K * V)) :
  NoDup l1.*1 → l1 ≡ₚ l2 → prop k l1 = prop k l2.
Proof.
  intros Hnd Hperm.
  assert (NoDup l2.*1) as Hnd2 by (by rewrite <-Hperm).
  apply option_eq. intros v.
  rewrite !prop_Some_NoDup by done. by rewrite Hperm.
Qed.

Section sequential_into_empty.
Context (s : list FaceSlot) (Hempty : Forall (λ slot, filled slot = false) s).

Lemma placed_by_index_lookup prior k :
  placed_by_index prior s !! k
  = (λ slot, match prop k prior with
             | Some f => with_image slot (Some (dataURL f))
             | None => slot
             end) <$> s !! k.
Proof. unfold placed_by_index. by rewrite list_lookup_imap. Qed.

(** The read of the file at position [i] completes while no read for that
    position has completed yet: the image goes to slot [i]. *)
Lemma placeSequential_step prior i f :
  prop i prior = None →
  placeSequential i (dataURL f) (placed_by_index prior s)
  = placed_by_index ((i, f) :: prior) s.
Proof.
  intros Hi.
  assert (∀ slot, s !! i = Some slot →
            placed_by_index prior s !! i = Some slot ∧ filled slot = false)
    as Hslot.
  { intros slot Hs. rewrite placed_by_index_lookup, Hs, Hi. split; [done|].
    by apply (proj1 (Forall_lookup _ _) Hempty i). }
  assert (∀ k, k ≠ i →
            placed_by_index ((i, f) :: prior) s !! k
            = placed_by_index prior s !! k) as Hother.
  { intros k Hk. rewrite !placed_by_index_lookup. cbn.
    by rewrite decide_False. }
  assert (s !! i = None → placed_by_index ((i, f) :: prior) s
                          = placed_by_index prior s) as Hout.
  { intros Hnone. apply list_eq. intros k.
    destruct (decide (k = i)) as [->|Hk]; [|by apply Hother].
    by rewrite !placed_by_index_lookup, Hnone. }
  destruct (placeSequential_spec i (dataURL f) (placed_by_index prior s))
    as [(e & (Hle & (slot & He & Hf) & Hbefore) & (slot' & He' & ->))
       |(Hnone & [(slot & Hs & _)|[_ ->]])].
  - (* placed at the first empty slot from [i] on, which is [i] *)
    assert (is_Some (s !! i)) as [si Hsi].
    { apply lookup_lt_is_Some. apply lookup_lt_Some in He.
      unfold placed_by_index in He. rewrite length_imap in He. lia. }
    destruct (Hslot si Hsi) as [Hpi Hfi].
    assert (e = i) as ->.
    { destruct (decide (e = i)); [done|].
      specialize (Hbefore i si ltac:(lia) Hpi). congruence. }
    assert (slot' = si) as -> by congruence.
    apply list_eq. intros k. destruct (decide (k = i)) as [->|Hk].
    + rewrite list_lookup_insert_eq by (by eapply lookup_lt_Some).
      rewrite placed_by_index_lookup, Hsi. cbn. by rewrite decide_True.
    + by rewrite list_lookup_insert_ne, Hother.
  - (* no empty slot from [i] on, yet slot [i] exists: impossible *)
    rewrite placed_by_index_lookup in Hs.
    destruct (s !! i) as [si|] eqn:Hsi; [|done].
    destruct (Hslot si eq_refl) as [Hpi Hfi].
    specialize (Hnone i si ltac:(lia) Hpi). congruence.
  - (* no empty slot from [i] on: there is no slot [i] *)
    destruct (s !! i) as [si|] eqn:Hsi; [|by rewrite Hout].
    destruct (Hslot si eq_refl) as [Hpi Hfi].
    specialize (Hnone i si ltac:(lia) Hpi). congruence.
Qed.

Lemma complete_sequential ps : ∀ prior,
  NoDup (ps ++ prior).*1 →
  complete ((λ p, placeSequential p.1 (dataURL p.2)) <$> ps)
    (placed_by_index prior s)
  = placed_by_index (reverse ps ++ prior) s.
Proof.
  induction ps as [|[i f] ps IH]; intros prior Hnd; [done|].
  rewrite fmap_cons, complete_cons. cbn [fst snd].
  cbn in Hnd. apply NoDup_cons in Hnd as [Hi Hnd].
  rewrite placeSequential_step.
  - rewrite reverse_cons, <-(assoc_L (++)). cbn. apply IH.
    rewrite fmap_app in *. cbn. apply NoDup_app in Hnd as (H1 & H2 & H3).
    apply NoDup_app. split; [done|]. split.
    + intros k Hk [->|Hin]%elem_of_cons; [|by eapply H2].
      apply Hi. apply elem_of_app. by left.
    + apply NoDup_cons. split; [|done].
      intros Hin. apply Hi. apply elem_of_app. by right.
  - apply prop_None. intros Hin. apply Hi. rewrite fmap_app.
    apply elem_of_app. by right.
Qed.
End sequential_into_empty.

(** X5. Sequential mode is free of races when every slot is empty: if no
    file names a face and all slots are empty, then once all started reads
    have completed, in whatever order, the file at position [i] of the
    first six is in the slot at index [i]. *)
Theorem sequential_into_empty_slots (files : list File)
    (s : list FaceSlot) (cs : list Update) :
  Forall (λ f, detectFaceFromFilename (name f) = None) files →
  Forall (λ slot, filled slot = false) s →
  cs ≡ₚ handleBulkUpload (Some files) →
  complete cs s
  = imap (λ i slot, match take 6 files !! i with
                    | Some f => with_image slot (Some (dataURL f))
                    | None => slot
                    end) s.
Proof.
  intros Hnone Hempty Hcs.
  rewrite (handleBulkUpload_sequential files Hnone) in Hcs.
  set (fs := take 6 files) in *.
  set (pairs := imap (λ i f, (i, f)) fs).
  assert (imap (λ i f, placeSequential i (dataURL f)) fs
          = (λ p, placeSequential p.1 (dataURL p.2)) <$> pairs) as Heq.
  { unfold pairs. by rewrite fmap_imap. }
  rewrite Heq in Hcs.
  apply Permutation_fmap_inv in Hcs as (ps & -> & Hps).
  assert (∀ i f, (i, f) ∈ pairs ↔ fs !! i = Some f) as Hpairs.
  { intros i f. unfold pairs. rewrite elem_of_lookup_imap. split.
    - by intros (i' & f' & [= -> ->] & H').
    - intros H'. by exists i, f. }
  assert (NoDup pairs.*1) as Hnd.
  { assert (pairs.*1 = seq 0 (length fs)) as ->; [|apply NoDup_seq].
    unfold pairs. rewrite fmap_imap. apply list_eq. intros k.
    rewrite list_lookup_imap.
    destruct (decide (k < length fs)) as [Hk|Hk].
    - rewrite lookup_seq_lt by done.
      by destruct (lookup_lt_is_Some_2 fs k Hk) as [f ->].
    - rewrite lookup_seq_ge by lia.
      by rewrite (proj2 (lookup_ge_None fs k)) by lia. }
  assert (placed_by_index [] s = s) as Hstart.
  { unfold placed_by_index. apply list_eq. intros k.
    rewrite list_lookup_imap. by destruct (s !! k). }
  rewrite <-Hstart at 1.
  rewrite (complete_sequential s Hempty ps [])
    by (by rewrite app_nil_r, Hps).
  rewrite app_nil_r. unfold placed_by_index. apply imap_ext.
  intros i slot _. cbn.
  assert (prop i (reverse ps) = fs !! i) as ->; [|done].
  assert (NoDup (reverse ps).*1) as Hnd'.
  { by rewrite fmap_reverse, reverse_Permutation, Hps. }
  apply option_eq. intros f.
  rewrite (prop_Some_NoDup _ _ _ Hnd'), elem_of_reverse, Hps. apply Hpairs.
Qed.

(** Three unnamed files on the initial slots, the reads completing in
    reverse order. *)
Lemma sequential_into_empty_slots_witness :
  complete (reverse (handleBulkUpload (Some abc_files))) INITIAL_SLOTS
  = slots_with (Some "A") (Some "B") (Some "C") None None None.
Proof.
  rewrite (sequential_into_empty_slots abc_files INITIAL_SLOTS
             (reverse (handleBulkUpload (Some abc_files)))).
  - reflexivity.
  - repeat constructor.
  - repeat constructor.
  - apply reverse_Permutation.
Defined.

Lemma placeDetected_step fc img prior s :
  placeDetected (Some fc) img (placed_by_face prior s)
  = placed_by_face ((fc, img) :: prior) s.
Proof.
  unfold placeDetected, placed_by_face. rewrite <-list_fmap_compose.
  apply list_fmap_ext. intros k slot _. cbn.
  destruct (prop (face slot) prior); cbn;
    destruct (decide (face slot = fc)); done.
Qed.

Lemma complete_detected s ps : ∀ prior,
  complete ((λ p, placeDetected (Some p.1) p.2) <$> ps)
    (placed_by_face prior s)
  = placed_by_face (reverse ps ++ prior) s.
Proof.
  induction ps as [|[fc img] ps IH]; intros prior; [done|].
  rewrite fmap_cons, complete_cons. cbn [fst snd].
  rewrite placeDetected_step, IH, reverse_cons, <-(assoc_L (++)). done.
Qed.

Lemma handleBulkUpload_all_detected (files : list File) :
  Forall (λ f, detectFaceFromFilename (name f) ≠ None) (take 6 files) →
  handleBulkUpload (Some files)
  = (λ p, placeDetected (Some p.1) p.2) <$> detected_table (take 6 files).
Proof.
  intros Hall. destruct (take 6 files) as [|f0 fs] eqn:Hfs.
  { unfold handleBulkUpload. by rewrite Hfs. }
  rewrite handleBulkUpload_detected.
  - rewrite Hfs. clear Hfs.
    induction Hall as [|f l Hf _ IH]; [done|].
    rewrite fmap_cons. unfold detected_table. cbn [omap list_omap].
    destruct (detectFaceFromFilename (name f)) as [fc|]; [|done].
    cbn. f_equal. apply IH.
  - rewrite Hfs. apply Exists_cons_hd. by inversion Hall.
Qed.

(** X6. Detected mode is free of races when every file names a face and
    no two name the same one: once all started reads have completed, in
    whatever order, each slot whose face a file names holds that file's
    image and every other slot is as before.  When two files name the
    same face, the one whose read completes last stays; placements on
    different faces commute. *)
Theorem detected_files_reach_their_faces (files : list File)
    (s : list FaceSlot) (cs : list Update) :
  Forall (λ f, detectFaceFromFilename (name f) ≠ None) (take 6 files) →
  NoDup (detected_table (take 6 files)).*1 →
  cs ≡ₚ handleBulkUpload (Some files) →
  complete cs s = placed_by_face (detected_table (take 6 files)) s
  ∧ (∀ fc a b s0,
       placeDetected (Some fc) b (placeDetected (Some fc) a s0)
       = placeDetected (Some fc) b s0)
  ∧ (∀ fc gc a b, fc ≠ gc →
       commute (placeDetected (Some fc) a) (placeDetected (Some gc) b)).
Proof.
  intros Hall Hnd Hcs. split; [|split].
  - rewrite (handleBulkUpload_all_detected files Hall) in Hcs.
    apply Permutation_fmap_inv in Hcs as (ps & -> & Hps).
    assert (placed_by_face [] s = s) as Hstart.
    { unfold placed_by_face. rewrite <-(list_fmap_id s) at 2.
      by apply list_fmap_ext. }
    rewrite <-Hstart at 1. rewrite complete_detected, app_nil_r.
    unfold placed_by_face. apply list_fmap_ext. intros k slot _. cbn.
    rewrite (prop_Permutation (face slot) (reverse ps)
               (detected_table (take 6 files))); [done| |].
    + by rewrite fmap_reverse, reverse_Permutation, Hps.
    + by rewrite reverse_Permutation.
  - intros fc a b s0. unfold placeDetected. rewrite <-list_fmap_compose.
    apply list_fmap_ext. intros k slot _. cbn.
    destruct (decide (face slot = fc)) as [Hf|Hf]; cbn;
      [by rewrite decide_True|by rewrite decide_False].
  - intros fc gc a b Hne s0. unfold placeDetected.
    rewrite <-!list_fmap_compose. apply list_fmap_ext. intros k slot _. cbn.
    destruct (decide (face slot = gc)) as [Hg|Hg],
             (decide (face slot = fc)) as [Hf|Hf]; cbn.
    all: repeat case_decide; congruence.
Qed.

(** The two sky files, the reads completing in reverse order, on slots
    whose Right slot already holds an image. *)
Lemma detected_files_reach_their_faces_witness :
  complete (reverse (handleBulkUpload (Some sky_files)))
    (slots_with None None None (Some "old") None None)
  = slots_with None (Some "NX") None (Some "PX") None None.
Proof.
  refine (eq_trans
    (proj1 (detected_files_reach_their_faces sky_files
              (slots_with None None None (Some "old") None None)
              (reverse (handleBulkUpload (Some sky_files))) _ _ _)) _).
  - repeat constructor; vm_compute; discriminate.
  - apply (bool_decide_unpack _). vm_compute. exact I.
  - apply reverse_Permutation.
  - vm_compute. reflexivity.
Defined.

(** X7. The outcome of a bulk upload can depend on the order in which its
    reads complete.  Sequential mode, Top already filled: two files that
    name no face end in Left and Front when the first file's read
    completes first, and in Front and Left when the second's does.
    Detected mode, Top, Left and Front already filled: of a file that
    names no face and a file that names Right, the unnamed one is placed
    in Right (the first empty slot) and then overwritten, so its image is
    lost, when its read completes first; when the named file's read
    completes first, the unnamed one goes to Back and both images are
    kept. *)
Theorem bulk_upload_depends_on_completion_order
    (f g h : File) (a b c : string) :
  detectFaceFromFilename (name f) = None →
  detectFaceFromFilename (name g) = None →
  detectFaceFromFilename (name h) = Some FRight →
  nonempty (dataURL f) = true → nonempty (dataURL g) = true →
  nonempty (dataURL h) = true →
  nonempty a = true → nonempty b = true → nonempty c = true →
  (handleBulkUpload (Some [f; g])
   = [placeSequential 0 (dataURL f); placeSequential 1 (dataURL g)]
   ∧ complete [placeSequential 0 (dataURL f); placeSequential 1 (dataURL g)]
       (slots_with (Some a) None None None None None)
     = slots_with (Some a) (Some (dataURL f)) (Some (dataURL g))
         None None None
   ∧ complete [placeSequential 1 (dataURL g); placeSequential 0 (dataURL f)]
       (slots_with (Some a) None None None None None)
     = slots_with (Some a) (Some (dataURL g)) (Some (dataURL f))
         None None None)
  ∧ (handleBulkUpload (Some [f; h])
     = [placeDetected None (dataURL f);
        placeDetected (Some FRight) (dataURL h)]
     ∧ complete [placeDetected None (dataURL f);
                 placeDetected (Some FRight) (dataURL h)]
         (slots_with (Some a) (Some b) (Some c) None None None)
       = slots_with (Some a) (Some b) (Some c) (Some (dataURL h)) None None
     ∧ complete [placeDetected (Some FRight) (dataURL h);
                 placeDetected None (dataURL f)]
         (slots_with (Some a) (Some b) (Some c) None None None)
       = slots_with (Some a) (Some b) (Some c) (Some (dataURL h))
           (Some (dataURL f)) None).
Proof.
  intros Hf Hg Hh Hdf Hdg Hdh Ha Hb Hc.
  split; [split|split].
  - rewrite handleBulkUpload_sequential by (by repeat constructor). done.
  - destruct (dataURL f) as [|c1 df]; [done|].
    destruct (dataURL g) as [|c2 dg]; [done|].
    destruct a as [|c0 a]; [done|]. split; vm_compute; reflexivity.
  - rewrite handleBulkUpload_detected.
    + cbn. by rewrite Hf, Hh.
    + apply Exists_cons_tl, Exists_cons_hd. by rewrite Hh.
  - destruct (dataURL f) as [|c1 df]; [done|].
    destruct (dataURL h) as [|c2 dh]; [done|].
    destruct a as [|ca a]; [done|]. destruct b as [|cb b]; [done|].
    destruct c as [|cc c]; [done|]. split; vm_compute; reflexivity.
Qed.

(** Two unnamed files and one that names Right. *)
Lemma bulk_upload_depends_on_completion_order_witness :
  complete [placeSequential 0 "A"; placeSequential 1 "B"]
    (slots_with (Some "T") None None None None None)
  = slots_with (Some "T") (Some "A") (Some "B") None None None
  ∧ complete [placeSequential 1 "B"; placeSequential 0 "A"]
      (slots_with (Some "T") None None None None None)
    = slots_with (Some "T") (Some "B") (Some "A") None None None.
Proof.
  refine (proj2 (proj1 (bulk_upload_depends_on_completion_order
            (file "a.png" "A") (file "b.png" "B") (file "px.png" "PX")
            "T" "L" "F" _ _ _ _ _ _ _ _ _))); vm_compute; reflexivity.
Defined.

(** ** Further properties of the drag and touch handlers *)

Lemma swapImages_same i s : i < length s → swapImages i i s = Some s.
Proof.
  intros Hi. destruct (lookup_lt_is_Some_2 s i Hi) as [d Hd].
  destruct (swapImages_lookup s i i d d Hd Hd) as (s' & -> & _ & Hlook).
  f_equal. apply list_eq. intros k. rewrite Hlook, with_image_id.
  repeat case_decide; by subst.
Qed.

(** The exchange a completed drag from [i] to [j] performs. *)
Lemma drop_exchanges (st : State) i j :
  i < length (slots st) → j < length (slots st) →
  ∃ s', swapImages i j (slots st) = Some s'
        ∧ dropOnSlot {| slots := slots st; draggedIndex := Some i;
                        isDraggingFile := isDraggingFile st |} j []
          = Some ({| slots := s'; draggedIndex := None;
                     isDraggingFile := false |}, []).
Proof.
  intros Hi Hj.
  destruct (lookup_lt_is_Some_2 _ i Hi) as [d Hd].
  destruct (lookup_lt_is_Some_2 _ j Hj) as [t Ht].
  destruct (swapImages_lookup _ i j d t Hd Ht) as (s' & Hs' & _).
  exists s'. split; [done|]. unfold dropOnSlot, handleDrop. cbn.
  destruct (decide (i ≠ j)) as [Hne|Heq].
  - by rewrite Hs'.
  - assert (i = j) as -> by (by destruct (decide (i = j))).
    rewrite swapImages_same in Hs' by done. by injection Hs' as <-.
Qed.

(** The outcome of a mouse drag from slot [i] to slot [j]. *)
Lemma mouseDrag_outcome (st : State) (i j : nat) (slot : FaceSlot) :
  draggedIndex st = None →
  slots st !! i = Some slot → j < length (slots st) →
  ∃ st', mouseDrag st i j = Some (st', [])
    ∧ draggedIndex st' = None
    ∧ (if filled slot
       then exchanged i j (slots st) (slots st')
            ∧ swapImages i j (slots st) = Some (slots st')
            ∧ isDraggingFile st' = false
       else st' = st).
Proof.
  intros Hnone Hslot Hj. pose proof (lookup_lt_Some _ _ _ Hslot) as Hi.
  unfold mouseDrag, handleDragStart. rewrite Hslot. cbn -[dropOnSlot].
  destruct (filled slot) eqn:Hf; cbn -[dropOnSlot].
  - destruct (lookup_lt_is_Some_2 _ j Hj) as [t Ht].
    destruct (swapImages_lookup _ i j slot t Hslot Ht)
      as (s' & Hs' & _ & Hlook).
    destruct (drop_exchanges st i j Hi Hj) as (s'' & Hs'' & Hdrop).
    assert (s'' = s') as -> by congruence.
    rewrite Hdrop. cbn. eexists. split; [done|]. split; [done|].
    split; [by exists slot, t|done].
  - exists st. by split.
Qed.

(** X8. A mouse drag of slot [i] dropped on slot [j], when no drag is in
    progress, starts no file read.  If slot [i] is empty the drag is
    refused at its start and nothing changes; otherwise the images of the
    two slots are exchanged: slot [j] gets the image slot [i] had, slot
    [i] the image slot [j] had, every slot keeps its face and every other
    slot is unchanged (nothing changes for [i = j]); the drop overlay is
    hidden, and afterwards no slot is marked as dragged. *)
Theorem mouse_drag_exchanges (st : State) (i j : nat) (slot : FaceSlot) :
  draggedIndex st = None →
  slots st !! i = Some slot → j < length (slots st) →
  ∃ st', mouseDrag st i j = Some (st', [])
    ∧ draggedIndex st' = None
    ∧ (if filled slot
       then exchanged i j (slots st) (slots st')
            ∧ swapImages i j (slots st) = Some (slots st')
            ∧ isDraggingFile st' = false
       else st' = st).
Proof. apply mouseDrag_outcome. Qed.

(** Front dragged onto Right. *)
Lemma mouse_drag_exchanges_witness :
  ∃ st', mouseDrag
           {| slots := slots_with None None (Some "F") None None None;
              draggedIndex := None; isDraggingFile := false |} 2 3
         = Some (st', [])
         ∧ draggedIndex st' = None.
Proof.
  destruct (mouse_drag_exchanges
              {| slots := slots_with None None (Some "F") None None None;
                 draggedIndex := None; isDraggingFile := false |} 2 3
              {| face := FFront; image := Some "F" |})
    as (st' & H1 & H2 & _); [reflexivity|reflexivity|simpl; lia|].
  by exists st'.
Defined.

(** X9. A touch drag gives the same slots as the mouse drag between the
    same two slots: with no touch and no drag in progress, a touch that
    starts on slot [i], moves, and ends on slot [j] exchanges the images
    of the two slots when slot [i] is filled (slot [j] gets the image slot
    [i] had and slot [i] the image slot [j] had, the other slots are
    unchanged) and changes nothing when it is empty; afterwards no touch
    is in progress and no slot is marked as dragged.  A tap (touch start
    and end with no move) never changes the slots. *)
Theorem touch_drag_like_mouse_drag (st : State) (t : Touch) (i j : nat) :
  draggedIndex st = None → touchStartIndex t = None →
  i < length (slots st) → j < length (slots st) →
  ∃ st' t' stm st2 t2,
    touchDrag st t i j = Some (st', t')
    ∧ mouseDrag st i j = Some (stm, [])
    ∧ slots st' = slots stm
    ∧ (∀ slot, slots st !! i = Some slot →
         if filled slot then exchanged i j (slots st) (slots st')
         else slots st' = slots st)
    ∧ draggedIndex st' = None ∧ touchStartIndex t' = None
    ∧ touchTap st t i = Some (st2, t2)
    ∧ slots st2 = slots st
    ∧ draggedIndex st2 = None ∧ touchStartIndex t2 = None.
Proof.
  intros Hnone Hstart Hi Hj.
  destruct (lookup_lt_is_Some_2 _ i Hi) as [slot Hslot].
  destruct (mouseDrag_outcome st i j slot Hnone Hslot Hj)
    as (stm & Hm & _ & Hmouse).
  assert (∀ s', slots stm = s' →
            if filled slot then exchanged i j (slots st) s'
            else s' = slots st) as Hex.
  { intros s' <-. destruct (filled slot); [by destruct Hmouse|by subst]. }
  unfold touchDrag, touchTap, handleTouchStart. rewrite Hslot.
  destruct (filled slot) eqn:Hf.
  - destruct Hmouse as (_ & Hswap & _). cbn.
    destruct (decide (i = j)) as [->|Hne].
    + rewrite bool_decide_eq_false_2 by (intros H'; by apply H'). cbn.
      rewrite swapImages_same in Hswap by done. injection Hswap as Hs.
      eexists _, _, stm, _, _. repeat split; try done.
      intros ? [= <-]. rewrite Hf. by apply Hex.
    + rewrite bool_decide_eq_true_2 by done. cbn. rewrite Hswap. cbn.
      eexists _, _, stm, _, _. repeat split; try done.
      intros ? [= <-]. rewrite Hf. by apply Hex.
  - subst stm. unfold handleTouchMove, handleTouchEnd. rewrite Hstart. cbn.
    rewrite Hstart. eexists _, _, st, _, _. repeat split; try done.
    intros ? [= <-]. rewrite Hf. by apply Hex.
Qed.

(** Left dragged onto Top by touch. *)
Lemma touch_drag_like_mouse_drag_witness :
  ∃ st' t',
    touchDrag {| slots := slots_with None (Some "L") None None None None;
                 draggedIndex := None; isDraggingFile := false |}
              {| touchStartIndex := None; isDraggingTouch := false |} 1 0
    = Some (st', t')
    ∧ draggedIndex st' = None.
Proof.
  destruct (touch_drag_like_mouse_drag
              {| slots := slots_with None (Some "L") None None None None;
                 draggedIndex := None; isDraggingFile := false |}
              {| touchStartIndex := None; isDraggingTouch := false |} 1 0)
    as (st' & t' & _ & _ & _ & H1 & _ & _ & _ & H2 & _);
    [reflexivity|reflexivity|simpl; lia|simpl; lia|].
  by exists st', t'.
Defined.

(** X10. The click that follows a touch drag opens no file picker: after a
    touch drag that started on a filled slot the first click on any slot
    is swallowed, and the click after it opens that slot's picker again;
    so does a click made after the timer of the touch end has run. *)
Theorem click_after_touch_drag (st : State) (t : Touch) (i j k : nat)
    (slot : FaceSlot) :
  slots st !! i = Some slot → filled slot = true →
  j < length (slots st) → k < length (slots st) →
  ∃ st' t',
    touchDrag st t i j = Some (st', t')
    ∧ isDraggingTouch t' = true
    ∧ (handleSlotClick st' t' k).2 = None
    ∧ handleSlotClick st' (handleSlotClick st' t' k).1 k
      = ((handleSlotClick st' t' k).1, Some k)
    ∧ handleSlotClick st' (touchTimer t') k = (touchTimer t', Some k).
Proof.
  intros Hslot Hf Hj Hk. pose proof (lookup_lt_Some _ _ _ Hslot) as Hi.
  unfold touchDrag, handleTouchStart. rewrite Hslot, Hf. cbn.
  assert (∃ s', (if bool_decide (i ≠ j) then swapImages i j (slots st)
                 else Some (slots st)) = Some s'
                ∧ length s' = length (slots st)) as (s' & -> & Hlen).
  { case_bool_decide; [|by eexists].
    destruct (lookup_lt_is_Some_2 _ j Hj) as [tg Htg].
    destruct (swapImages_lookup _ i j slot tg Hslot Htg) as (s' & -> & Hl & _).
    by exists s'. }
  cbn. eexists _, _. split; [done|]. split; [done|].
  unfold handleSlotClick. cbn. rewrite Hlen.
  by rewrite bool_decide_eq_true_2.
Qed.

(** Left dragged onto Top by touch, then a click on Top. *)
Lemma click_after_touch_drag_witness :
  ∃ st' t',
    touchDrag {| slots := slots_with None (Some "L") None None None None;
                 draggedIndex := None; isDraggingFile := false |}
              {| touchStartIndex := None; isDraggingTouch := false |} 1 0
    = Some (st', t')
    ∧ (handleSlotClick st' t' 0).2 = None.
Proof.
  destruct (click_after_touch_drag
              {| slots := slots_with None (Some "L") None None None None;
                 draggedIndex := None; isDraggingFile := false |}
              {| touchStartIndex := None; isDraggingTouch := false |} 1 0 0
              {| face := FLeft; image := Some "L" |})
    as (st' & t' & H1 & _ & H2 & _);
    [reflexivity|reflexivity|simpl; lia|simpl; lia|].
  by exists st', t'.
Defined.

(** ** Further properties of the compositor and of the page *)

Lemma exportCubemap_started slots fmt cfg :
  prop (format_key fmt) EXPORT_FORMATS = Some cfg →
  filter (λ s, filled s = true) slots ≠ [] →
  ∃ ex, exportCubemap slots fmt true = Some ex
        ∧ effects ex =
            [ CreateCanvas (FACE_SIZE * width cfg) (FACE_SIZE * height cfg);
              ClearRect 0 0 (FACE_SIZE * width cfg) (FACE_SIZE * height cfg) ]
            ++ ((λ s, NewImage (default EmptyString (image s)))
                  <$> filter (λ s, filled s = true) slots)
        ∧ loading ex = filter (λ s, filled s = true) slots
        ∧ totalImages ex = filledCount slots.
Proof.
  intros Hcfg Hsome. unfold exportCubemap. rewrite Hcfg. cbn.
  rewrite bool_decide_eq_false_2
    by (by destruct (filter (λ s, filled s = true) slots)).
  eexists. by split.
Qed.

(** X11. The Export button is enabled exactly when the export has
    something to do: with the button enabled (some slot is filled) the
    export raises no alert and starts loading one image per filled slot;
    with the button disabled it would only raise the alert.  The count
    shown in the status bar is the number of images the export waits for,
    and it is at most six on well-formed slots. *)
Theorem export_button_guards_the_alert (slots : list FaceSlot)
    (fmt : ExportFormat) :
  ∃ ex, exportCubemap slots fmt true = Some ex
    ∧ totalImages ex = filledCount slots
    ∧ length (loading ex) = filledCount slots
    ∧ (buttons_disabled slots = false ↔ ∀ msg, Alert msg ∉ effects ex)
    ∧ (buttons_disabled slots = true ↔
       Alert "Please add at least one image before exporting." ∈ effects ex)
    ∧ (well_formed slots → filledCount slots ≤ 6).
Proof.
  destruct (registry_lookup fmt) as (cfg & Hcfg & _).
  assert (well_formed slots → filledCount slots ≤ 6) as Hsix.
  { intros Hwf. unfold filledCount.
    rewrite <-(well_formed_length slots Hwf). apply length_filter. }
  destruct (decide (filter (λ s, filled s = true) slots = [])) as [Hnil|Hsome].
  - destruct (exportCubemap_empty slots fmt cfg Hcfg Hnil)
      as (ex & Hex & Heff & Hl & _).
    assert (filledCount slots = 0) as H0 by (unfold filledCount; by rewrite Hnil).
    assert (buttons_disabled slots = true) as Hb
      by (by apply bool_decide_eq_true_2).
    assert (Alert "Please add at least one image before exporting."
            ∈ effects ex) as Hin.
    { rewrite Heff. do 2 apply list_elem_of_further. apply list_elem_of_here. }
    exists ex. split; [done|]. rewrite H0, Hl, Hb.
    split; [unfold exportCubemap in Hex; rewrite Hcfg in Hex; cbn in Hex;
            rewrite Hnil in Hex; cbn in Hex; by injection Hex as <-|].
    split; [done|].
    split; [split; [done|]; intros Hno; exfalso; by eapply Hno|].
    split; [by split|]. intros _. lia.
  - destruct (exportCubemap_started slots fmt cfg Hcfg Hsome)
      as (ex & Hex & Heff & Hl & Ht).
    assert (filledCount slots ≠ 0) as H0.
    { unfold filledCount. by destruct (filter _ slots). }
    assert (buttons_disabled slots = false) as Hb
      by (by apply bool_decide_eq_false_2).
    assert (∀ msg, Alert msg ∉ effects ex) as Hno.
    { intros msg. rewrite Heff.
      intros [Hin|[Hin|Hin]%elem_of_cons]%elem_of_cons; try done.
      apply list_elem_of_fmap in Hin as (? & ? & ?). done. }
    exists ex. split; [done|]. split; [done|].
    split; [by rewrite Hl|]. rewrite Hb.
    split; [by split|].
    split; [split; [done|]; intros Hin; exfalso; by eapply Hno|]. done.
Qed.

(** X12. Whatever the event loop delivers to an export, every image drawn
    so far lies entirely inside the canvas, and on well-formed slots no
    pixel has been painted by more than one image. *)
Theorem draws_stay_inside_the_canvas
    (slots : list FaceSlot) (fmt : ExportFormat) (ctx : bool)
    (ex0 ex : Export) (evs : list Event) :
  exportCubemap slots fmt ctx = Some ex0 →
  run evs ex0 = Some ex →
  Forall (inside (canvas ex)) (drawn (canvas ex))
  ∧ (well_formed slots → ∀ px py, length (painted (canvas ex) px py) ≤ 1).
Proof.
  intros Hex0 Hrun.
  destruct (registry_lookup fmt) as (cfg & Hcfg & Hok).
  set (images := filter (λ s, filled s = true) slots).
  assert (loading ex0 = [] → encoding ex0 = false → drawn (canvas ex0) = [] →
          Forall (inside (canvas ex)) (drawn (canvas ex))
          ∧ (well_formed slots →
             ∀ px py, length (painted (canvas ex) px py) ≤ 1)) as Hidle.
  { intros Hl He Hd. destruct (run_idle _ _ _ Hl He Hrun) as [-> ->].
    unfold painted. rewrite Hd. split; [done|]. intros _ px py. cbn. lia. }
  destruct ctx.
  - destruct (decide (images = [])) as [Hnil|Hsome].
    + destruct (exportCubemap_empty slots fmt cfg Hcfg Hnil)
        as (ex1 & Hex1 & _ & Hl & He & _ & Hd).
      assert (ex1 = ex0) as -> by congruence. by apply Hidle.
    + destruct (exportCubemap_invariant slots fmt cfg Hcfg Hsome)
        as (ex1 & Hex1 & _ & Hinv0).
      assert (ex1 = ex0) as -> by congruence.
      destruct (run_invariant slots fmt cfg evs _ _ _ _ Hinv0 Hrun)
        as (ld & fl & Hinv & _).
      destruct Hinv as [Hperm Hdrawn _ _ _ _ Hw Hh _ _ _].
      fold images in Hperm. split.
      * rewrite Hdrawn. apply Forall_fmap, Forall_forall. intros t _.
        destruct (proj1 Hok (face t)) as ([x y] & Hpos & Hx & Hy).
        unfold compose, inside, draw_of. rewrite Hpos, Hw, Hh. cbn in *.
        unfold FACE_SIZE. lia.
      * intros Hwf px py.
        assert (NoDup (face <$> ld)) as Hnd.
        { pose proof (well_formed_images_NoDup slots Hwf) as Hall.
          fold images in Hall. rewrite <-Hperm, fmap_app in Hall.
          by apply NoDup_app in Hall as (? & _). }
        unfold painted. rewrite Hdrawn, length_fmap.
        destruct (decide (Exists (λ t, prop (face t) (positions cfg)
                                       = Some (cell px py)) ld))
          as [(t & Ht & Hpos)%Exists_exists|Hno].
        -- by rewrite (painted_unique cfg Hok px py ld t Hnd Ht Hpos).
        -- rewrite painted_none; [cbn; lia|done|].
           intros t Ht Hpos. apply Hno. apply Exists_exists. eauto.
  - destruct (exportCubemap_no_context slots fmt cfg Hcfg)
      as (ex1 & Hex1 & _ & Hl & He & _ & Hd).
    assert (ex1 = ex0) as -> by congruence. by apply Hidle.
Qed.

(** Top and Bottom filled under the vertical cross, Bottom loaded. *)
Lemma draws_stay_inside_the_canvas_witness :
  ∃ ex, (ex0 ← exportCubemap
                 (slots_with (Some "T") None None None None (Some "B"))
                 CrossVertical true;
         run [Loaded 1] ex0) = Some ex
        ∧ Forall (inside (canvas ex)) (drawn (canvas ex)).
Proof.
  eexists. split; [reflexivity|].
  refine (proj1 (draws_stay_inside_the_canvas
                   (slots_with (Some "T") None None None None (Some "B"))
                   CrossVertical true _ _ [Loaded 1] eq_refl eq_refl)).
Defined.

(** An export keeps the layout it was started with. *)
Lemma exportCubemap_format slots fmt ctx ex0 :
  exportCubemap slots fmt ctx = Some ex0 →
  prop (format_key fmt) EXPORT_FORMATS = Some (format ex0).
Proof.
  unfold exportCubemap.
  destruct (prop (format_key fmt) EXPORT_FORMATS) as [cfg|]; [|done]. cbn.
  destruct ctx; cbn; [|by intros [= <-]].
  case_bool_decide; by intros [= <-].
Qed.

Lemma fire_format ev ex ex' : fire ev ex = Some ex' → format ex' = format ex.
Proof.
  destruct ev as [i|i|blob]; cbn.
  - destruct (loading ex !! i) as [slot|]; [|done]. cbn. unfold onload. cbn.
    destruct (prop (face slot) (positions (format ex))); [|done]. cbn.
    by intros [= <-].
  - destruct (loading ex !! i); [|done]. cbn. by intros [= <-].
  - destruct (encoding ex); [|done]. by intros [= <-].
Qed.

Lemma run_format evs : ∀ ex ex',
  run evs ex = Some ex' → format ex' = format ex.
Proof.
  induction evs as [|ev evs IH]; intros ex ex'; cbn; [by intros [= <-]|].
  destruct (fire ev ex) as [ex1|] eqn:Hfire; [|done]. cbn. intros Hrun.
  rewrite (IH _ _ Hrun). by apply (fire_format ev).
Qed.

(** X13. In the preview every layout puts the six slots into six different
    grid areas: the grid area of a slot is the single cell one row below
    and one column right of its cell's zero-based position (grid lines are
    counted from 1), inside the layout's grid, and it is the cell the
    export paints the slot's image into: at any point of an export under
    the same layout, when the image of a slot finishes loading, [onload]
    draws it as the 512-square at ([x * 512], [y * 512]) for that same
    cell ([x], [y]).  Slots of different faces never share a grid area. *)
Theorem preview_grid_matches_export (fmt : ExportFormat) :
  ∃ cfg,
    prop (format_key fmt) EXPORT_FORMATS = Some cfg
    ∧ (∀ slot, ∃ x y,
         prop (face slot) (positions cfg) = Some (x, y)
         ∧ slotGridArea fmt slot
           = Some (pretty (y + 1)%Z +:+ " / " +:+ pretty (x + 1)%Z +:+ " / "
                   +:+ pretty (y + 2)%Z +:+ " / " +:+ pretty (x + 2)%Z)
         ∧ (1 ≤ y + 1 ≤ height cfg)%Z ∧ (1 ≤ x + 1 ≤ width cfg)%Z
         ∧ ∀ slots ctx ex0 evs ex i,
             exportCubemap slots fmt ctx = Some ex0 →
             run evs ex0 = Some ex →
             loading ex !! i = Some slot →
             ∃ ex',
               fire (Loaded i) ex = Some ex'
               ∧ drawn (canvas ex')
                 = drawn (canvas ex)
                   ++ [{| src := default EmptyString (image slot);
                          dx := x * FACE_SIZE; dy := y * FACE_SIZE;
                          dw := FACE_SIZE; dh := FACE_SIZE |}%Z])
    ∧ (∀ s1 s2, slotGridArea fmt s1 = slotGridArea fmt s2 →
                face s1 = face s2).
Proof.
  destruct (registry_lookup fmt) as (cfg & Hcfg & Hok).
  exists cfg. split; [done|]. split.
  - intros slot. destruct (proj1 Hok (face slot)) as ([x y] & Hpos & Hx & Hy).
    exists x, y. split; [done|]. cbn in Hx, Hy.
    assert (width cfg ≤ 6 ∧ height cfg ≤ 6)%Z as [Hw Hh].
    { clear -Hcfg. destruct fmt; vm_compute in Hcfg;
        injection Hcfg as <-; cbn; lia. }
    split; [|split; [lia|split; [lia|]]].
    + unfold slotGridArea, getGridArea, safe_integer. rewrite Hcfg. cbn.
      rewrite Hpos. cbn.
      rewrite !bool_decide_eq_true_2 by (unfold MAX_SAFE_INTEGER; lia). cbn.
      by replace (y + 1 + 1)%Z with (y + 2)%Z by lia;
         replace (x + 1 + 1)%Z with (x + 2)%Z by lia.
    + intros slots ctx ex0 evs ex i Hex0 Hrun Hload.
      assert (format ex = cfg) as Hfmt.
      { rewrite (run_format _ _ _ Hrun).
        apply exportCubemap_format in Hex0. congruence. }
      cbn. rewrite Hload. cbn. unfold onload. cbn. rewrite Hfmt, Hpos. cbn.
      eexists. split; reflexivity.
  - intros [f1 i1] [f2 i2]. clear.
    destruct fmt, f1, f2; vm_compute; congruence.
Qed.

(** X14. A drop of several files on a slot is handled twice, by the slot
    and then by the container: it starts the direct assignment of the
    first file to that slot and, besides, the bulk upload of all the
    files, the first one included; it exchanges no slots even while a slot
    is being dragged, and it hides the drop overlay.  So two unnamed files
    dropped on the Bottom slot of the initial slots leave the first image
    both in Bottom and in Top, in every completion order. *)
Theorem multi_file_drop_on_slot (st : State) (target : nat) (f g : File)
    (rest : list File) :
  dropOnSlot (handleGlobalDragOver st true) target (f :: g :: rest)
  = Some ({| slots := slots st; draggedIndex := None;
             isDraggingFile := false |},
          assignAt target (dataURL f)
            :: handleBulkUpload (Some (f :: g :: rest)))
  ∧ (∀ cs, cs ≡ₚ [assignAt 5 "A"; placeSequential 0 "A";
                  placeSequential 1 "B"] →
           complete cs INITIAL_SLOTS
           = slots_with (Some "A") (Some "B") None None None (Some "A"))
  ∧ assignAt 5 (dataURL (file "a.png" "A"))
      :: handleBulkUpload (Some [file "a.png" "A"; file "b.png" "B"])
    = [assignAt 5 "A"; placeSequential 0 "A"; placeSequential 1 "B"].
Proof.
  split; [|split].
  - unfold dropOnSlot, handleDrop, handleGlobalDrop, handleFileChange. cbn.
    by rewrite bool_decide_eq_true_2 by lia.
  - intros cs Hcs. apply symmetry in Hcs.
    each_order Hcs; vm_compute; reflexivity.
  - vm_compute. reflexivity.
Qed.

(** ** Further properties of the classifier *)

Lemma no_dot_app_end a : no_dot (a +:+ ".") = false.
Proof. apply (no_dot_app_dot a EmptyString). Qed.

Lemma removeExtension_trailing_dot base :
  removeExtension (base +:+ ".") = base +:+ ".".
Proof.
  induction base as [|c base IH]; [done|].
  rewrite append_cons. simpl.
  by rewrite no_dot_app_end, andb_false_r, IH.
Qed.

(** X15. Only the last extension is stripped, and only a non-empty one: a
    name followed by a dot and a non-empty extension without a dot is
    matched as the lower-cased name before that dot, also when that name
    contains dots itself; a trailing dot is not an extension and stays; a
    name without a dot is matched whole.  So a name that is only an
    extension is never classified, whatever the extension, and a dot left
    in the name is no boundary: "px.tar.gz" and "px." are unknown although
    "px.gz" is Right. *)
Theorem only_last_extension_is_stripped (base ext : string) :
  nonempty ext = true → no_dot ext = true →
  normalized (base +:+ "." +:+ ext) = toLowerCase base
  ∧ normalized (base +:+ ".") = toLowerCase base +:+ "."
  ∧ (no_dot base = true → normalized base = toLowerCase base)
  ∧ detectFaceFromFilename ("." +:+ ext) = None
  ∧ detectFaceFromFilename EmptyString = None
  ∧ detectFaceFromFilename "px.tar.gz" = None
  ∧ detectFaceFromFilename "px." = None
  ∧ detectFaceFromFilename "px.gz" = Some FRight.
Proof.
  intros Hne Hnd.
  assert (∀ b, normalized (b +:+ "." +:+ ext) = toLowerCase b) as Hstrip.
  { intros b. unfold normalized. rewrite !toLowerCase_app.
    apply removeExtension_app;
      by rewrite ?nonempty_toLowerCase, ?no_dot_toLowerCase. }
  split; [apply Hstrip|]. split.
  { unfold normalized. rewrite toLowerCase_app.
    apply removeExtension_trailing_dot. }
  split.
  { intros Hb. unfold normalized. apply removeExtension_no_dot.
    by rewrite no_dot_toLowerCase. }
  split.
  { pose proof (Hstrip EmptyString) as H0. unfold normalized in H0.
    rewrite append_nil in H0. unfold detectFaceFromFilename.
    by rewrite H0. }
  vm_compute. repeat split.
Qed.

(** The extension "px" alone. *)
Lemma only_last_extension_is_stripped_witness :
  detectFaceFromFilename ("." +:+ "px") = None.
Proof.
  refine (proj1 (proj2 (proj2 (proj2
    (only_last_extension_is_stripped "sky" "px" _ _))))); reflexivity.
Defined.

(** X16. What the rules look for, in words.  A two-letter or directional
    rule matches a name exactly when the name contains its word (in any
    case) with, on each side, either the end of the name or one of [_],
    [-] and white space; a rule with two words, when it contains either
    of them so delimited; a long pos/neg rule, when it contains, so
    delimited, the sign word, optionally followed by its ending
    ([itive], [ative]), optionally by one separator, and then the axis
    letter; a sign rule ([+x], [-x], ...) matches a name exactly when the
    name contains its two characters anywhere. *)
Theorem rules_match_delimited_tokens (s : string) :
  (∀ w, test (bounded w) s = true
        ↔ occurs_delimited (λ m, spells m w) s)
  ∧ (∀ w1 w2, test (bounded2 w1 w2) s = true
              ↔ occurs_delimited (λ m, spells m w1 ∨ spells m w2) s)
  ∧ (∀ sign rest axis, test (long_form sign rest axis) s = true
                       ↔ occurs_delimited (long_token sign rest axis) s)
  ∧ (∀ w, test (lit w) s = true ↔ occurs (λ m, spells m w) s).
Proof.
  split; [|split; [|split]].
  - intros w. change (bounded w) with (cat (lead :: [lit w] ++ [trail])).
    rewrite test_delimited by apply anchor_free_lit.
    apply occurs_delimited_iff. intros m. apply lang_lit.
  - intros w1 w2.
    change (bounded2 w1 w2)
      with (cat (lead :: [Alt (lit w1) (lit w2)] ++ [trail])).
    rewrite test_delimited by (cbn; by rewrite !anchor_free_lit).
    apply occurs_delimited_iff. intros m. cbn. by rewrite !lang_lit.
  - intros sign rest axis.
    change (long_form sign rest axis)
      with (cat (lead :: [lit sign; Opt (lit rest); Opt Sep; lit axis]
                   ++ [trail])).
    rewrite test_delimited by (cbn; by rewrite !anchor_free_lit).
    apply occurs_delimited_iff. intros m. apply lang_long_form.
  - intros w. unfold test. rewrite test_from_spec. unfold match_here, occurs.
    split.
    + intros (pre & suf & -> & H).
      apply (rmatch_lang _ (anchor_free_lit w)) in H as (m & post & -> & Hm & _).
      exists pre, m, post. split; [done|]. by apply lang_lit.
    + intros (pre & m & post & -> & Hm). exists pre, (m +:+ post).
      split; [done|]. apply (rmatch_lang _ (anchor_free_lit w)).
      exists m, post. split; [done|]. split; [by apply lang_lit|done].
Qed.
